(** * init2winit optimizer library: kitchen-sink transforms and optimizer utilities

    A shallow embedding of
      - [init2winit/optimizer_lib/kitchen_sink/_src/transform.py]
      - [init2winit/optimizer_lib/utils.py]
    together with the properties stated about them.

    Conventions of the embedding.
      - Python exceptions are values of [exn]; a function that may raise
        returns [res A].
      - An [int32] scalar is a [Z] in the int32 range, its addition wraps
        around ([Int32.add]).
      - Floating-point scalars are an interface ([Float]): the transforms are
        written once against it, the way the source is written against
        [jax.numpy].  Properties that only depend on the structure of the
        computation hold for every implementation of the interface; numeric
        properties are proved for [xreal], the reals extended with the IEEE
        special values (nan, +inf, -inf), where finite arithmetic is exact.
      - An array is a shape and its row-major data; a pytree is, as in
        [jax.tree_util.tree_flatten], a tree definition and its leaves. *)

From Stdlib Require Import ZArith String List Bool Lia Reals Lra.
Import ListNotations.

Set Implicit Arguments.

(* ================================================================= *)
(** ** Exceptions *)

Inductive exn : Type :=
| ValueError (msg : string)   (* raise ValueError(...) *)
| AssertionError              (* a failed [assert] *)
| TypeError                   (* inspect.Signature.bind failures *)
| IndexError                  (* tuple index out of range *)
| StructureError              (* tree_map on trees of different structure *)
| ShapeError.                 (* incompatible shapes for broadcasting *)

Definition res (A : Type) : Type := (exn + A)%type.

Definition ret {A} (a : A) : res A := inr a.
Definition raise {A} (e : exn) : res A := inl e.
Definition bind {A B} (c : res A) (k : A -> res B) : res B :=
  match c with
  | inl e => inl e
  | inr a => k a
  end.
Definition fmap {A B} (f : A -> B) (c : res A) : res B :=
  match c with
  | inl e => inl e
  | inr a => inr (f a)
  end.

Notation "x <- c ;; k" := (bind c (fun x => k))
  (at level 61, c at next level, right associativity).

Definition succeeds {A} (c : res A) : bool :=
  match c with inr _ => true | inl _ => false end.

Fixpoint mapM {A B} (f : A -> res B) (l : list A) : res (list B) :=
  match l with
  | [] => ret []
  | x :: l' => y <- f x ;; ys <- mapM f l' ;; ret (y :: ys)
  end.

Fixpoint mapM2 {A B C} (f : A -> B -> res C) (l1 : list A) (l2 : list B)
  : res (list C) :=
  match l1, l2 with
  | [], [] => ret []
  | x :: l1', y :: l2' => z <- f x y ;; zs <- mapM2 f l1' l2' ;; ret (z :: zs)
  | _, _ => raise StructureError
  end.

Fixpoint mapM3 {A B C D} (f : A -> B -> C -> res D)
  (l1 : list A) (l2 : list B) (l3 : list C) : res (list D) :=
  match l1, l2, l3 with
  | [], [], [] => ret []
  | x :: l1', y :: l2', z :: l3' =>
      w <- f x y z ;; ws <- mapM3 f l1' l2' l3' ;; ret (w :: ws)
  | _, _, _ => raise StructureError
  end.

Fixpoint zip_with {A B C} (f : A -> B -> C) (l1 : list A) (l2 : list B)
  : list C :=
  match l1, l2 with
  | x :: l1', y :: l2' => f x y :: zip_with f l1' l2'
  | _, _ => []
  end.

(* ================================================================= *)
(** ** int32 scalars *)

Module Int32.
Local Open Scope Z_scope.

Definition min_int : Z := -2147483648.
Definition max_int : Z := 2147483647.   (* jnp.iinfo(jnp.int32).max *)

Definition in_range (z : Z) : Prop := min_int <= z <= max_int.

(** Two's complement wrap-around of a mathematical integer. *)
Definition wrap (z : Z) : Z := (z + 2 ^ 31) mod 2 ^ 32 - 2 ^ 31.

Definition add (a b : Z) : Z := wrap (a + b).
Definition sub (a b : Z) : Z := wrap (a - b).

(** Float to int32 conversion of an integral value: out-of-range values
    saturate. *)
Definition clamp (z : Z) : Z := Z.max min_int (Z.min max_int z).

Lemma wrap_in_range z : in_range (wrap z).
Proof.
  unfold in_range, wrap, min_int, max_int.
  pose proof (Z.mod_pos_bound (z + 2 ^ 31) (2 ^ 32) ltac:(lia)). lia.
Qed.

Lemma wrap_id z : in_range z -> wrap z = z.
Proof.
  unfold in_range, wrap, min_int, max_int. intros H.
  rewrite Z.mod_small by lia. lia.
Qed.

Lemma clamp_id z : in_range z -> clamp z = z.
Proof. unfold in_range, clamp. lia. Qed.
End Int32.

(* ================================================================= *)
(** ** The floating-point interface *)

Class Float (F : Type) : Type := {
  f_of_Z : Z -> F;             (* int -> float conversion, literals *)
  fadd : F -> F -> F;
  fsub : F -> F -> F;
  fmul : F -> F -> F;
  fdiv : F -> F -> F;
  fpowi : F -> Z -> F;         (* x ** n for an integer n *)
  fpower : F -> F -> F;        (* jnp.power *)
  fsqrt : F -> F;              (* jnp.sqrt *)
  fsign : F -> F;              (* jnp.sign *)
  fmaximum : F -> F -> F;      (* jnp.maximum *)
  ffloor : F -> F;             (* jnp.floor *)
  f_to_int32 : F -> Z;         (* jnp.int32(x) *)
  fleb : F -> F -> bool;       (* x <= y *)
  fltb : F -> F -> bool;       (* x < y *)
  feqb : F -> F -> bool;       (* x == y *)
  fisfinite : F -> bool;       (* neither nan nor +-inf *)
}.

Section Arrays.
Context {F : Type} {FL : Float F}.

Definition fzero : F := f_of_Z 0.
Definition fone : F := f_of_Z 1.
Definition fhalf : F := fdiv (f_of_Z 1) (f_of_Z 2).   (* the literal 0.5 *)

(* =============================================================== *)
(** ** Arrays *)

Record array : Type := mk_array { shape : list nat; data : list F }.

Definition size_of (s : list nat) : nat := fold_right Nat.mul 1%nat s.
Definition ndim (a : array) : nat := length (shape a).
Definition asize (a : array) : nat := size_of (shape a).

Definition well_formed (a : array) : Prop := length (data a) = asize a.

(** A 0-d array holding one scalar. *)
Definition scalar (x : F) : array := mk_array [] [x].
(** The single element of a 0-d (or one-element) array. *)
Definition item (a : array) : F := nth 0 (data a) fzero.

Definition amap (f : F -> F) (a : array) : array :=
  mk_array (shape a) (map f (data a)).

Definition zeros_like (a : array) : array := amap (fun _ => fzero) a.
Definition ones_like (a : array) : array := amap (fun _ => fone) a.
Definition full_like (a : array) (v : F) : array := amap (fun _ => v) a.

(** NumPy broadcasting; both functions work on reversed shapes, last axis
    first. *)
Fixpoint bshape (s1 s2 : list nat) : option (list nat) :=
  match s1, s2 with
  | [], s => Some s
  | s, [] => Some s
  | d1 :: r1, d2 :: r2 =>
      match bshape r1 r2 with
      | None => None
      | Some r =>
          if Nat.eqb d1 d2 then Some (d1 :: r)
          else if Nat.eqb d1 1 then Some (d2 :: r)
          else if Nat.eqb d2 1 then Some (d1 :: r)
          else None
      end
  end.

(** Flat index, in an array of (reversed) shape [sa], of the element that
    position [i] of the broadcast (reversed) shape [s] reads. *)
Fixpoint bidx (s sa : list nat) (i : nat) : nat :=
  match s, sa with
  | d :: s', da :: sa' =>
      ((if Nat.eqb da 1 then 0 else i mod d) + da * bidx s' sa' (i / d))%nat
  | _, _ => 0%nat
  end.

Definition broadcast_shapes (s1 s2 : list nat) : option (list nat) :=
  option_map (@rev nat) (bshape (rev s1) (rev s2)).

Definition bget (s : list nat) (a : array) (i : nat) : F :=
  nth (bidx (rev s) (rev (shape a)) i) (data a) fzero.

Definition shape_eqb (s1 s2 : list nat) : bool :=
  if list_eq_dec Nat.eq_dec s1 s2 then true else false.

(** The shape of an element-wise binary operation. *)
Definition amap2_shape (s1 s2 : list nat) : res (list nat) :=
  if shape_eqb s1 s2 then ret s1
  else match broadcast_shapes s1 s2 with
       | None => raise ShapeError
       | Some s => ret s
       end.

(** An element-wise binary operation with broadcasting. *)
Definition amap2 (f : F -> F -> F) (a b : array) : res array :=
  if shape_eqb (shape a) (shape b)
  then ret (mk_array (shape a) (zip_with f (data a) (data b)))
  else match broadcast_shapes (shape a) (shape b) with
       | None => raise ShapeError
       | Some s =>
           ret (mk_array s
                  (map (fun i => f (bget s a i) (bget s b i))
                       (seq 0 (size_of s))))
       end.

(** [jnp.reshape]: the data is kept, the sizes must agree. *)
Definition reshape (a : array) (new_shape : list nat) : res array :=
  if Nat.eqb (length (data a)) (size_of new_shape)
  then ret (mk_array new_shape (data a))
  else raise ShapeError.

(* =============================================================== *)
(** ** Pytrees *)

(** One node of a tree definition, in post-order as [PyTreeDef] stores
    them. *)
Inductive node : Type :=
| NLeaf
| NNone
| NTuple (arity : nat)
| NList (arity : nat)
| NDict (keys : list string).

Definition treedef : Type := list node.

Record pytree : Type := mk_pytree { tdef : treedef; leaves : list array }.

Definition node_eq_dec (x y : node) : {x = y} + {x <> y}.
Proof.
  decide equality; try apply Nat.eq_dec.
  apply (list_eq_dec string_dec).
Defined.

Definition treedef_eqb (d1 d2 : treedef) : bool :=
  if list_eq_dec node_eq_dec d1 d2 then true else false.

(** Constructors of pytrees, as [tree_flatten] sees Python values. *)
Definition leaf (a : array) : pytree := mk_pytree [NLeaf] [a].
Definition tree_tuple (ts : list pytree) : pytree :=
  mk_pytree (concat (map tdef ts) ++ [NTuple (length ts)])
            (concat (map leaves ts)).
Definition tree_list (ts : list pytree) : pytree :=
  mk_pytree (concat (map tdef ts) ++ [NList (length ts)])
            (concat (map leaves ts)).
Definition tree_dict (kts : list (string * pytree)) : pytree :=
  mk_pytree (concat (map (fun kt => tdef (snd kt)) kts) ++ [NDict (map fst kts)])
            (concat (map (fun kt => leaves (snd kt)) kts)).

(** [jax.tree_map] with one, two and three trees.  The first tree gives the
    structure; the others must have the same one. *)
Definition tree_map (f : array -> array) (t : pytree) : pytree :=
  mk_pytree (tdef t) (map f (leaves t)).

Definition tree_mapM (f : array -> res array) (t : pytree) : res pytree :=
  ls <- mapM f (leaves t) ;; ret (mk_pytree (tdef t) ls).

Definition tree_map2 (f : array -> array -> res array) (t1 t2 : pytree)
  : res pytree :=
  if treedef_eqb (tdef t1) (tdef t2)
  then ls <- mapM2 f (leaves t1) (leaves t2) ;; ret (mk_pytree (tdef t1) ls)
  else raise StructureError.

Definition tree_map3 (f : array -> array -> array -> res array)
  (t1 t2 t3 : pytree) : res pytree :=
  if treedef_eqb (tdef t1) (tdef t2) && treedef_eqb (tdef t1) (tdef t3)
  then ls <- mapM3 f (leaves t1) (leaves t2) (leaves t3) ;;
       ret (mk_pytree (tdef t1) ls)
  else raise StructureError.

(** Two trees are congruent when they have the same structure and their
    leaves have the same shapes. *)
Definition congruent (t1 t2 : pytree) : Prop :=
  tdef t1 = tdef t2 /\ map shape (leaves t1) = map shape (leaves t2).

End Arrays.

(* ================================================================= *)
(** ** transform.py *)

Section Transforms.
Context {F : Type} {FL : Float F}.

Local Abbreviation array := (@array F).
Local Abbreviation pytree := (@pytree F).

(** An [optax.GradientTransformation]: a pair of functions.  [params] is
    optional in [update], as in [update_fn(updates, state, params=None)]. *)
Record GradientTransformation (S : Type) : Type := {
  init : pytree -> res S;
  update : pytree -> S -> option pytree -> res (pytree * S);
}.

(* --------------------------------------------------------------- *)
(** *** Numeric helpers *)

(** The counter is an int32 scalar by its type here, which is what
    [chex.assert_type(count, jnp.int32)] checks. *)
Definition _safe_int32_increment (count : Z) : Z :=
  let max_int32_value := Int32.max_int in
  let one := 1%Z in
  if (count <? max_int32_value)%Z then Int32.add count one
  else max_int32_value.

Definition _update_moment (updates moments : pytree) (decay : F) (order : Z)
  : res pytree :=
  tree_map2
    (amap2 (fun g t => fadd (fmul (fsub fone decay) (fpowi g order))
                            (fmul decay t)))
    updates moments.

Definition _bias_correction (moment : pytree) (decay : F) (count : Z)
  : pytree :=
  let beta := fsub fone (fpowi decay count) in
  tree_map (amap (fun t => fdiv t beta)) moment.

(** [jnp.sqrt if power == 0.5 else lambda x: jnp.power(x, power)] *)
Definition raise_power_of (power : F) : F -> F :=
  if feqb power fhalf then fsqrt else fun x => fpower x power.

(* --------------------------------------------------------------- *)
(** *** Second-moment preconditioners *)

Record PreconditionBySecondMomentCoordinateWiseState : Type := {
  pc_count : Z;       (* count *)
  pc_nu : pytree;     (* nu *)
}.

Definition precondition_by_rms (decay eps eps_root : F) (debias : bool)
  (power : F)
  : GradientTransformation PreconditionBySecondMomentCoordinateWiseState :=
  let raise_power := raise_power_of power in
  let init_fn := fun params : pytree =>
    ret {| pc_count := 0; pc_nu := tree_map zeros_like params |} in
  let update_fn := fun (updates : pytree) state (_ : option pytree) =>
    nu <- _update_moment updates (pc_nu state) decay 2 ;;
    let count := Int32.add (pc_count state) 1 in
    let nu_hat := if negb debias then nu
                  else _bias_correction nu decay count in
    updates <- tree_map2
                 (amap2 (fun u v =>
                    fdiv u (fadd (raise_power (fadd v eps_root)) eps)))
                 updates nu_hat ;;
    ret (updates, {| pc_count := count; pc_nu := nu |}) in
  {| init := init_fn; update := update_fn |}.

Definition precondition_by_yogi (b2 eps eps_root initial_accumulator_value : F)
  (debias : bool)
  : GradientTransformation PreconditionBySecondMomentCoordinateWiseState :=
  let init_fn := fun params : pytree =>
    let value_like := fun p => full_like p initial_accumulator_value in
    let nu := tree_map value_like params in
    ret {| pc_count := 0; pc_nu := nu |} in
  let update_fn := fun (updates : pytree) state (_ : option pytree) =>
    nu <- tree_map2
            (amap2 (fun g v =>
               fsub v (fmul (fmul (fsub fone b2)
                                  (fsign (fsub v (fpowi g 2))))
                            (fpowi g 2))))
            updates (pc_nu state) ;;
    let count := Int32.add (pc_count state) 1 in
    let nu_hat := if negb debias then nu else _bias_correction nu b2 count in
    updates <- tree_map2
                 (amap2 (fun u v =>
                    fdiv u (fadd (fsqrt (fadd v eps_root)) eps)))
                 updates nu_hat ;;
    ret (updates, {| pc_count := count; pc_nu := nu |}) in
  {| init := init_fn; update := update_fn |}.

Definition precondition_by_amsgrad (b2 eps eps_root : F)
  : GradientTransformation PreconditionBySecondMomentCoordinateWiseState :=
  let init_fn := fun params : pytree =>
    ret {| pc_count := 0; pc_nu := tree_map zeros_like params |} in
  let update_fn := fun (updates : pytree) state (_ : option pytree) =>
    nu <- _update_moment updates (pc_nu state) b2 2 ;;
    let count := Int32.add (pc_count state) 1 in
    nu_hat <- tree_map2 (amap2 fmaximum) nu (pc_nu state) ;;
    updates <- tree_map2
                 (amap2 (fun m v =>
                    fdiv m (fadd (fsqrt (fadd v eps_root)) eps)))
                 updates nu_hat ;;
    ret (updates, {| pc_count := count; pc_nu := nu |}) in
  {| init := init_fn; update := update_fn |}.

(* --------------------------------------------------------------- *)
(** *** Bias correction *)

Record BiasCorrectionState : Type := { bc_count : Z }.

Definition bias_correction (decay : F)
  : GradientTransformation BiasCorrectionState :=
  let init_fn := fun _ : pytree => ret {| bc_count := 0 |} in
  let update_fn := fun (updates : pytree) state (_ : option pytree) =>
    let count_inc := _safe_int32_increment (bc_count state) in
    let new_vals := _bias_correction updates decay count_inc in
    ret (new_vals, {| bc_count := count_inc |}) in
  {| init := init_fn; update := update_fn |}.

(* --------------------------------------------------------------- *)
(** *** Adam and NAdam *)

Record ScaleByAdamState : Type := {
  adam_count : Z;      (* count *)
  adam_mu : pytree;    (* mu *)
  adam_nu : pytree;    (* nu *)
}.

Definition scale_by_adam (b1 b2 eps eps_root : F) (debias : bool) (power : F)
  : GradientTransformation ScaleByAdamState :=
  let raise_power := raise_power_of power in
  let init_fn := fun params : pytree =>
    let mu := tree_map zeros_like params in
    let nu := tree_map zeros_like params in
    ret {| adam_count := 0; adam_mu := mu; adam_nu := nu |} in
  let update_fn := fun (updates : pytree) state (_ : option pytree) =>
    mu <- _update_moment updates (adam_mu state) b1 1 ;;
    nu <- _update_moment updates (adam_nu state) b2 2 ;;
    let count := Int32.add (adam_count state) 1 in
    let mu_hat := if negb debias then mu else _bias_correction mu b1 count in
    let nu_hat := if negb debias then nu else _bias_correction nu b2 count in
    updates <- tree_map2
                 (amap2 (fun m v =>
                    fdiv m (fadd (raise_power (fadd v eps_root)) eps)))
                 mu_hat nu_hat ;;
    ret (updates, {| adam_count := count; adam_mu := mu; adam_nu := nu |}) in
  {| init := init_fn; update := update_fn |}.

Definition scale_by_nadam (b1 b2 eps eps_root : F) (debias : bool) (power : F)
  : GradientTransformation ScaleByAdamState :=
  let raise_power := raise_power_of power in
  let init_fn := fun params : pytree =>
    let mu := tree_map zeros_like params in
    let nu := tree_map zeros_like params in
    ret {| adam_count := 0; adam_mu := mu; adam_nu := nu |} in
  let update_fn := fun (updates : pytree) state (_ : option pytree) =>
    mu <- _update_moment updates (adam_mu state) b1 1 ;;
    nu <- _update_moment updates (adam_nu state) b2 2 ;;
    let count := Int32.add (adam_count state) 1 in
    mu_hat <- _update_moment updates mu b1 1 ;;
    let mu_hat := if negb debias then mu_hat
                  else _bias_correction mu_hat b1 count in
    let nu_hat := if negb debias then nu else _bias_correction nu b2 count in
    updates <- tree_map2
                 (amap2 (fun m v =>
                    fdiv m (fadd (raise_power (fadd v eps_root)) eps)))
                 mu_hat nu_hat ;;
    ret (updates, {| adam_count := count; adam_mu := mu; adam_nu := nu |}) in
  {| init := init_fn; update := update_fn |}.

(* --------------------------------------------------------------- *)
(** *** Sanitizing and clipping *)

(** [jnp.nan_to_num(x, nan=r, posinf=r, neginf=r)] on one element. *)
Definition nan_to_num (replacement x : F) : F :=
  if fisfinite x then x else replacement.

Definition _sanitize_values (a : array) (replacement : F) : array :=
  amap (nan_to_num replacement) a.

Definition sanitize_values (replacement : F) : GradientTransformation unit :=
  let init_fn := fun _ : pytree => ret tt in
  let update_fn := fun (updates : pytree) (state : unit) (_ : option pytree) =>
    let updates := tree_map (fun x => _sanitize_values x replacement) updates in
    ret (updates, state) in
  {| init := init_fn; update := update_fn |}.

(** [jnp.sum] of all the elements and [jnp.mean]; their results are 0-d
    arrays. *)
Definition jnp_sum (l : list F) : F := fold_left fadd l fzero.

Definition jnp_mean (a : array) : array :=
  scalar (fdiv (jnp_sum (data a)) (f_of_Z (Z.of_nat (asize a)))).

(** [jnp.sum(array, axis=-1)]: one sum per row of the last axis. *)
Definition jnp_sum_last_axis (a : array) : array :=
  match rev (shape a) with
  | [] => a
  | d :: r =>
      mk_array (rev r)
        (map (fun k => jnp_sum (firstn d (skipn (k * d) (data a))))
             (seq 0 (size_of r)))
  end.

Definition _reduce_mean (a : array) : array :=
  let num_elements := asize a in
  if (10 ^ 8 <? Z.of_nat num_elements)%Z then
    let array_sum := jnp_sum_last_axis a in
    let array_sum := jnp_sum (data array_sum) in
    scalar (fdiv array_sum (f_of_Z (Z.of_nat num_elements)))
  else jnp_mean a.

Definition _reduce_rms (a : array) : array :=
  let sq := amap (fun x => fmul x x) a in
  let sq_mean := _reduce_mean sq in
  amap fsqrt sq_mean.

Definition _clip_update (update : array) (clip_threshold : F) : array :=
  let mean_update := _sanitize_values (_reduce_rms update) fone in
  let denom := amap (fun m => fmaximum fone (fdiv m clip_threshold)) mean_update in
  amap (fun x => fdiv x (item denom)) update.

Definition clip_updates (clip_threshold : F) : GradientTransformation unit :=
  let init_fn := fun _ : pytree => ret tt in
  let update_fn := fun (updates : pytree) (state : unit) (_ : option pytree) =>
    let updates := tree_map (fun x => _clip_update x clip_threshold) updates in
    ret (updates, state) in
  {| init := init_fn; update := update_fn |}.

(* --------------------------------------------------------------- *)
(** *** Layered adaptive RMS *)

Record PreconditionByLayeredAdaptiveRMSState : Type := {
  la_count : Z;              (* count *)
  la_nu : pytree;            (* nu *)
  la_beta_array : pytree;    (* beta_array *)
  la_scale_array : pytree;   (* scale_array *)
}.

(** Python indexing of a sequence, negative indices counting from the end. *)
Definition py_index {A} (l : list A) (i : Z) : res A :=
  let j := if (i <? 0)%Z then (i + Z.of_nat (length l))%Z else i in
  if (j <? 0)%Z then raise IndexError
  else match nth_error l (Z.to_nat j) with
       | Some x => ret x
       | None => raise IndexError
       end.

(** [l.at[-1].set(v)]: an empty array has no last element to set. *)
Definition set_last {A} (l : list A) (v : A) : list A :=
  match l with
  | [] => []
  | _ => removelast l ++ [v]
  end.

(** [jnp.sum] of an int32 array. *)
Definition int32_sum (l : list Z) : Z := fold_left Int32.add l 0%Z.

(** [jnp.repeat(a, repeats)] for 1-d [a]: element [i] is repeated
    [repeats[i]] times; a single count applies to every element.  NumPy
    refuses negative counts; they give no copy here. *)
Definition jnp_repeat {A} (a : list A) (repeats : list Z) : res (list A) :=
  if Nat.eqb (length repeats) (length a)
  then ret (concat (zip_with (fun x n => repeat x (Z.to_nat n)) a repeats))
  else match repeats with
       | [n] => ret (concat (map (fun x => repeat x (Z.to_nat n)) a))
       | _ => raise ShapeError
       end.

(** The bucket sizes of [_generate_partition]. *)
Definition partition_multiples (decay_distribution : list F) (length : nat)
  : list Z :=
  let multiples :=
    map (fun d => f_to_int32 (ffloor (fmul d (f_of_Z (Z.of_nat length)))))
        decay_distribution in
  set_last multiples
    (Int32.sub (Int32.add (last multiples 0%Z) (Z.of_nat length))
               (int32_sum multiples)).

Definition _generate_partition (decays decay_distribution : list F)
  (length : nat) : res (list F) :=
  let multiples := partition_multiples decay_distribution length in
  jnp_repeat decays multiples.

Definition _generate_per_parameter_array (decay_distribution : list F)
  (modality : string) (arr : list F) (params : array) : res array :=
  let input_index := Z.max (Z.of_nat (length (shape params)) - 2) 0 in
  let output_index := (Z.of_nat (length (shape params)) - 1)%Z in
  array_len <- (if String.eqb modality "output"
                then py_index (shape params) output_index
                else py_index (shape params) input_index) ;;
  full_array <- _generate_partition arr decay_distribution array_len ;;
  let target_index := if String.eqb modality "output" then output_index
                      else input_index in
  let new_shape := repeat 1%nat (ndim params) in
  let new_shape :=
    firstn (Z.to_nat target_index) new_shape ++
    array_len :: skipn (S (Z.to_nat target_index)) new_shape in
  reshape (mk_array [length full_array] full_array) new_shape.

Definition _update_moment_general (updates moments beta : array) (order : Z)
  : res array :=
  let one_minus_beta := amap (fun b => fsub fone b) beta in
  let one_minus_beta :=
    amap (fun x => if fleb x fzero then fone else x) one_minus_beta in
  lhs <- amap2 fmul one_minus_beta (amap (fun g => fpowi g order) updates) ;;
  rhs <- amap2 fmul beta moments ;;
  amap2 fadd lhs rhs.

Definition precondition_by_layered_adaptive_rms
  (decays scales decay_distribution : list F) (modality : string)
  (eps eps_root : F)
  : GradientTransformation PreconditionByLayeredAdaptiveRMSState :=
  let init_fn := fun params : pytree =>
    let count := 0%Z in
    let nu := tree_map zeros_like params in
    beta_array <- tree_mapM
      (_generate_per_parameter_array decay_distribution modality decays)
      params ;;
    scale_array <- tree_mapM
      (_generate_per_parameter_array decay_distribution modality scales)
      params ;;
    ret {| la_count := count; la_nu := nu;
           la_beta_array := beta_array; la_scale_array := scale_array |} in
  let update_fn := fun (updates : pytree) state (_ : option pytree) =>
    nu <- tree_map3 (fun g t b => _update_moment_general g t b 2)
            updates (la_nu state) (la_beta_array state) ;;
    let count := Int32.add (la_count state) 1 in
    updates <- tree_map3
      (fun m v s =>
         q <- amap2 (fun m v => fdiv m (fadd (fsqrt (fadd v eps_root)) eps))
                m v ;;
         amap2 fmul s q)
      updates nu (la_scale_array state) ;;
    ret (updates,
         {| la_count := count; la_nu := nu;
            la_beta_array := la_beta_array state;
            la_scale_array := la_scale_array state |}) in
  {| init := init_fn; update := update_fn |}.

(* --------------------------------------------------------------- *)
(** *** Weight decay *)




(* --------------------------------------------------------------- *)
(** *** Bias-corrected decay *)


(* --------------------------------------------------------------- *)
(** *** Momentum with decoupled decays *)

(** [optax.TraceState] *)
Record TraceState : Type := { trace : pytree }.

Definition nesterovpp (moment_decay update_decay : F)
  : GradientTransformation TraceState :=
  let init_fn := fun params : pytree =>
    ret {| trace := tree_map zeros_like params |} in
  let update_fn := fun (updates : pytree) state (_ : option pytree) =>
    let f_moment := fun g t => fadd g (fmul moment_decay t) in
    let f_update := fun g t => fadd g (fmul update_decay t) in
    new_trace <- tree_map2 (amap2 f_moment) updates (trace state) ;;
    updates <- tree_map2 (amap2 f_update) updates new_trace ;;
    ret (updates, {| trace := new_trace |}) in
  {| init := init_fn; update := update_fn |}.

(* --------------------------------------------------------------- *)
(** *** AMSGrad with a first moment *)

Record ScaleByAMSGradState : Type := {
  ams_mu : pytree;    (* mu *)
  ams_nu : pytree;    (* nu *)
}.

Definition scale_by_amsgrad (b1 b2 eps eps_root : F)
  : GradientTransformation ScaleByAMSGradState :=
  let init_fn := fun params : pytree =>
    let mu := tree_map zeros_like params in
    let nu := tree_map zeros_like params in
    ret {| ams_mu := mu; ams_nu := nu |} in
  let update_fn := fun (updates : pytree) state (_ : option pytree) =>
    mu <- _update_moment updates (ams_mu state) b1 1 ;;
    nu <- _update_moment updates (ams_nu state) b2 2 ;;
    nu_hat <- tree_map2 (amap2 fmaximum) nu (ams_nu state) ;;
    updates <- tree_map2
                 (amap2 (fun m v =>
                    fdiv m (fadd (fsqrt (fadd v eps_root)) eps)))
                 mu nu_hat ;;
    ret (updates, {| ams_mu := mu; ams_nu := nu |}) in
  {| init := init_fn; update := update_fn |}.

(* --------------------------------------------------------------- *)
(** *** Root sum of squares *)

Record PreconditionByRssState : Type := { sum_of_squares : pytree }.

Definition precondition_by_rss (initial_accumulator_value eps power : F)
  : GradientTransformation PreconditionByRssState :=
  let raise_power := raise_power_of power in
  let init_fn := fun params : pytree =>
    let sum_of_squares :=
      tree_map (fun t => full_like t initial_accumulator_value) params in
    ret {| sum_of_squares := sum_of_squares |} in
  let update_fn := fun (updates : pytree) state (_ : option pytree) =>
    sum_of_squares <- tree_map2
                        (amap2 (fun g t => fadd (fmul g g) t))
                        updates (sum_of_squares state) ;;
    updates <- tree_map2
                 (amap2 (fun scale g => fdiv g (raise_power (fadd scale eps))))
                 sum_of_squares updates ;;
    ret (updates, {| sum_of_squares := sum_of_squares |}) in
  {| init := init_fn; update := update_fn |}.

(* --------------------------------------------------------------- *)
(** *** Polyak averaging *)



End Transforms.

(* ================================================================= *)
(** ** Exact arithmetic with the IEEE special values *)

Module XReal.
Local Open Scope R_scope.

Inductive xreal : Type :=
| Fin (r : R)
| PInf
| NInf
| NaN.

Definition inf_of_sign (positive : bool) : xreal :=
  if positive then PInf else NInf.

Definition xneg (x : xreal) : xreal :=
  match x with
  | Fin a => Fin (- a)
  | PInf => NInf
  | NInf => PInf
  | NaN => NaN
  end.

Definition xadd (x y : xreal) : xreal :=
  match x, y with
  | NaN, _ | _, NaN => NaN
  | PInf, NInf | NInf, PInf => NaN
  | PInf, _ | _, PInf => PInf
  | NInf, _ | _, NInf => NInf
  | Fin a, Fin b => Fin (a + b)
  end.

Definition xsub (x y : xreal) : xreal := xadd x (xneg y).

(** An infinity times a finite factor. *)
Definition inf_times (positive : bool) (b : R) : xreal :=
  match total_order_T b 0 with
  | inleft (left _) => inf_of_sign (negb positive)
  | inleft (right _) => NaN
  | inright _ => inf_of_sign positive
  end.

Definition xmul (x y : xreal) : xreal :=
  match x, y with
  | NaN, _ | _, NaN => NaN
  | Fin a, Fin b => Fin (a * b)
  | PInf, Fin b | Fin b, PInf => inf_times true b
  | NInf, Fin b | Fin b, NInf => inf_times false b
  | PInf, PInf | NInf, NInf => PInf
  | PInf, NInf | NInf, PInf => NInf
  end.

(** Zero is the positive zero: a non-zero number divided by it is the
    infinity of the sign of the number. *)
Definition xdiv (x y : xreal) : xreal :=
  match x, y with
  | NaN, _ | _, NaN => NaN
  | Fin a, Fin b =>
      if Req_dec_T b 0 then
        match total_order_T a 0 with
        | inleft (left _) => NInf
        | inleft (right _) => NaN
        | inright _ => PInf
        end
      else Fin (a / b)
  | Fin _, (PInf | NInf) => Fin 0
  | PInf, Fin b => if Rlt_dec b 0 then NInf else PInf
  | NInf, Fin b => if Rlt_dec b 0 then PInf else NInf
  | (PInf | NInf), (PInf | NInf) => NaN
  end.

Definition xsqrt (x : xreal) : xreal :=
  match x with
  | Fin a => if Rlt_dec a 0 then NaN else Fin (sqrt a)
  | PInf => PInf
  | NInf => NaN
  | NaN => NaN
  end.

Definition xpowi (x : xreal) (n : Z) : xreal :=
  match x with
  | Fin a =>
      if (n <? 0)%Z then
        if Req_dec_T a 0 then PInf else Fin (powerRZ a n)
      else Fin (powerRZ a n)
  | PInf => if (0 <? n)%Z then PInf else if (n =? 0)%Z then Fin 1 else Fin 0
  | NInf =>
      if (0 <? n)%Z then inf_of_sign (Z.even n)
      else if (n =? 0)%Z then Fin 1 else Fin 0
  | NaN => if (n =? 0)%Z then Fin 1 else NaN
  end.

(** [jnp.power] with a floating-point exponent, on its principal cases: a
    negative base has a power only for an integral exponent. *)
Definition xpower (x p : xreal) : xreal :=
  match x, p with
  | _, Fin b =>
      if Req_dec_T b 0 then Fin 1
      else match x with
           | Fin a =>
               match total_order_T a 0 with
               | inleft (left _) =>
                   if Req_dec_T (IZR (Zfloor b)) b
                   then Fin (powerRZ a (Zfloor b)) else NaN
               | inleft (right _) => if Rlt_dec b 0 then PInf else Fin 0
               | inright _ => Fin (Rpower a b)
               end
           | PInf => if Rlt_dec b 0 then Fin 0 else PInf
           | NInf =>
               if Rlt_dec b 0 then Fin 0
               else if Req_dec_T (IZR (Zfloor b)) b
                    then inf_of_sign (Z.even (Zfloor b)) else PInf
           | NaN => NaN
           end
  | NaN, _ | _, NaN => NaN
  | Fin a, PInf =>
      match total_order_T (Rabs a) 1 with
      | inleft (left _) => Fin 0
      | inleft (right _) => Fin 1
      | inright _ => PInf
      end
  | Fin a, NInf =>
      match total_order_T (Rabs a) 1 with
      | inleft (left _) => PInf
      | inleft (right _) => Fin 1
      | inright _ => Fin 0
      end
  | (PInf | NInf), PInf => PInf
  | (PInf | NInf), NInf => Fin 0
  end.

Definition xsign (x : xreal) : xreal :=
  match x with
  | Fin a =>
      match total_order_T a 0 with
      | inleft (left _) => Fin (-1)
      | inleft (right _) => Fin 0
      | inright _ => Fin 1
      end
  | PInf => Fin 1
  | NInf => Fin (-1)
  | NaN => NaN
  end.

(** [jnp.maximum] propagates nan. *)
Definition xmaximum (x y : xreal) : xreal :=
  match x, y with
  | NaN, _ | _, NaN => NaN
  | PInf, _ | _, PInf => PInf
  | NInf, z | z, NInf => z
  | Fin a, Fin b => Fin (Rmax a b)
  end.

Definition xfloor (x : xreal) : xreal :=
  match x with
  | Fin a => Fin (IZR (Zfloor a))
  | _ => x
  end.

(** Conversion to int32 rounds towards zero and saturates. *)
Definition x_to_int32 (x : xreal) : Z :=
  match x with
  | Fin a =>
      Int32.clamp (if Rlt_dec a 0 then (- Zfloor (- a))%Z else Zfloor a)
  | PInf => Int32.max_int
  | NInf => Int32.min_int
  | NaN => 0%Z
  end.

Definition xleb (x y : xreal) : bool :=
  match x, y with
  | NaN, _ | _, NaN => false
  | NInf, _ | _, PInf => true
  | PInf, _ | _, NInf => false
  | Fin a, Fin b => if Rle_dec a b then true else false
  end.

Definition xltb (x y : xreal) : bool :=
  match x, y with
  | NaN, _ | _, NaN => false
  | PInf, _ | _, NInf => false
  | NInf, _ | _, PInf => true
  | Fin a, Fin b => if Rlt_dec a b then true else false
  end.

Definition xeqb (x y : xreal) : bool :=
  match x, y with
  | Fin a, Fin b => if Req_dec_T a b then true else false
  | PInf, PInf | NInf, NInf => true
  | _, _ => false
  end.

Definition xisfinite (x : xreal) : bool :=
  match x with
  | Fin _ => true
  | _ => false
  end.

#[export] Instance xreal_Float : Float xreal := {|
  f_of_Z := fun z => Fin (IZR z);
  fadd := xadd;
  fsub := xsub;
  fmul := xmul;
  fdiv := xdiv;
  fpowi := xpowi;
  fpower := xpower;
  fsqrt := xsqrt;
  fsign := xsign;
  fmaximum := xmaximum;
  ffloor := xfloor;
  f_to_int32 := x_to_int32;
  fleb := xleb;
  fltb := xltb;
  feqb := xeqb;
  fisfinite := xisfinite;
|}.

End XReal.

(* ================================================================= *)
(** ** utils.py: extract_field *)

Definition mem (name : string) (l : list string) : bool :=
  existsb (String.eqb name) l.

Fixpoint lookup {A} (name : string) (d : list (string * A)) : option A :=
  match d with
  | [] => None
  | (k, v) :: d' => if String.eqb name k then Some v else lookup name d'
  end.

Fixpoint remove_key {A} (name : string) (d : list (string * A))
  : list (string * A) :=
  match d with
  | [] => []
  | (k, v) :: d' =>
      if String.eqb name k then remove_key name d'
      else (k, v) :: remove_key name d'
  end.

Definition is_some {A} (o : option A) : bool :=
  match o with Some _ => true | None => false end.

(** Python values as far as [extract_field] tells them apart: a tuple, a
    namedtuple (a tuple whose slots are named by [_fields]), or something
    that is not a tuple. *)
#[warnings="-register-all"]
Inductive pyval : Type :=
| VNone
| VInt (z : Z)
| VStr (s : string)
| VList (l : list pyval)
| VDict (items : list (string * pyval))
| VTuple (elems : list pyval)
| VNamedTuple (slots : list (string * pyval)).

(** [isinstance(v, tuple)] *)
Definition is_tuple (v : pyval) : bool :=
  match v with VTuple _ | VNamedTuple _ => true | _ => false end.

(** [v is None] *)
Definition is_none (v : pyval) : bool :=
  match v with VNone => true | _ => false end.

(** [hasattr(state, '_fields') and field_name in state._fields] *)
Definition has_field (state : pyval) (field_name : string) : bool :=
  match state with
  | VNamedTuple slots => mem field_name (map fst slots)
  | _ => false
  end.

(** [getattr(state, field_name)] for a field of a namedtuple. *)
Definition getattr (state : pyval) (field_name : string) : res pyval :=
  match state with
  | VNamedTuple slots =>
      match lookup field_name slots with
      | Some v => ret v
      | None => raise IndexError
      end
  | _ => raise IndexError
  end.

Fixpoint extract_field (state : pyval) (field_name : string) : res pyval :=
  if negb (is_tuple state) then raise AssertionError
  else if has_field state field_name then getattr state field_name
  else
    match state with
    | VTuple elems =>
        (fix loop (l : list pyval) : res pyval :=
           match l with
           | [] => ret VNone
           | element :: l' =>
               if is_tuple element then
                 field <- extract_field element field_name ;;
                 if negb (is_none field) then ret field else loop l'
               else loop l'
           end) elems
    | VNamedTuple slots =>
        (fix loop (l : list (string * pyval)) : res pyval :=
           match l with
           | [] => ret VNone
           | (_, element) :: l' =>
               if is_tuple element then
                 field <- extract_field element field_name ;;
                 if negb (is_none field) then ret field else loop l'
               else loop l'
           end) slots
    | _ => ret VNone
    end.

(* ================================================================= *)
(** ** utils.py: static_inject_hyperparams *)

Section Inject.
(** The values passed to a factory, the factories, and the transformations
    they return. *)
Variable V : Type.
Variable Factory : Type.
Variable GT : Type.

(** [inspect.Parameter]: its kind, name and default. *)
Inductive param_kind : Type :=
| POSITIONAL_ONLY
| POSITIONAL_OR_KEYWORD
| VAR_POSITIONAL
| KEYWORD_ONLY
| VAR_KEYWORD.

Record parameter : Type := {
  p_name : string;
  p_kind : param_kind;
  p_default : option V;
}.

Definition signature : Type := list parameter.

(** [inspect.signature(inner_factory)] *)
Variable inspect_signature : Factory -> signature.

(** [optax.inject_hyperparams(inner_factory, static_args)( *args, **kwargs)] *)
Variable inject_hyperparams :
  Factory -> list string -> list V -> list (string * V) -> res GT.

(** A value of [BoundArguments.arguments]. *)
Inductive bound : Type :=
| BVal (v : V)
| BVarArgs (vs : list V)              (* the tuple bound to [*args] *)
| BVarKw (kw : list (string * V)).    (* the dict bound to [**kwargs] *)

Definition arguments : Type := list (string * bound).

Definition kind_eqb (k1 k2 : param_kind) : bool :=
  match k1, k2 with
  | POSITIONAL_ONLY, POSITIONAL_ONLY
  | POSITIONAL_OR_KEYWORD, POSITIONAL_OR_KEYWORD
  | VAR_POSITIONAL, VAR_POSITIONAL
  | KEYWORD_ONLY, KEYWORD_ONLY
  | VAR_KEYWORD, VAR_KEYWORD => true
  | _, _ => false
  end.

(** The first loop of [Signature._bind]: positional arguments against the
    parameters in order.  It returns the arguments bound so far and the
    parameters left for the keyword arguments. *)
Fixpoint bind_positional (params : signature) (args : list V)
  (kwargs : list (string * V)) (acc : arguments)
  : res (arguments * signature) :=
  match args with
  | [] =>
      match params with
      | [] => ret (acc, [])
      | param :: rest =>
          if kind_eqb (p_kind param) VAR_POSITIONAL then ret (acc, rest)
          else if is_some (lookup (p_name param) kwargs) then
            if kind_eqb (p_kind param) POSITIONAL_ONLY then raise TypeError
            else ret (acc, param :: rest)
          else if kind_eqb (p_kind param) VAR_KEYWORD
                  || is_some (p_default param)
          then ret (acc, param :: rest)
          else raise TypeError
      end
  | arg_val :: args' =>
      match params with
      | [] => raise TypeError
      | param :: rest =>
          if kind_eqb (p_kind param) VAR_KEYWORD
             || kind_eqb (p_kind param) KEYWORD_ONLY
          then raise TypeError
          else if kind_eqb (p_kind param) VAR_POSITIONAL
          then ret (acc ++ [(p_name param, BVarArgs (arg_val :: args'))], rest)
          else if is_some (lookup (p_name param) kwargs)
                  && negb (kind_eqb (p_kind param) POSITIONAL_ONLY)
          then raise TypeError
          else bind_positional rest args' kwargs
                 (acc ++ [(p_name param, BVal arg_val)])
      end
  end.

(** The second loop: the parameters left, against the keyword arguments.  It
    returns the arguments, the keyword arguments not consumed and the
    [**kwargs] parameter when there is one. *)
Fixpoint bind_keywords (params : signature) (kwargs : list (string * V))
  (kwargs_param : option parameter) (acc : arguments)
  : res (arguments * list (string * V) * option parameter) :=
  match params with
  | [] => ret (acc, kwargs, kwargs_param)
  | param :: rest =>
      if kind_eqb (p_kind param) VAR_KEYWORD
      then bind_keywords rest kwargs (Some param) acc
      else if kind_eqb (p_kind param) VAR_POSITIONAL
      then bind_keywords rest kwargs kwargs_param acc
      else match lookup (p_name param) kwargs with
           | None =>
               if is_some (p_default param)
               then bind_keywords rest kwargs kwargs_param acc
               else raise TypeError
           | Some arg_val =>
               if kind_eqb (p_kind param) POSITIONAL_ONLY then raise TypeError
               else bind_keywords rest (remove_key (p_name param) kwargs)
                      kwargs_param (acc ++ [(p_name param, BVal arg_val)])
           end
  end.

(** [inner_signature.bind( *args, **kwargs)] *)
Definition signature_bind (sig : signature) (args : list V)
  (kwargs : list (string * V)) : res arguments :=
  st <- bind_positional sig args kwargs [] ;;
  st2 <- bind_keywords (snd st) kwargs None (fst st) ;;
  match snd (fst st2), snd st2 with
  | [], _ => ret (fst (fst st2))
  | left_over, Some kwargs_param =>
      ret (fst (fst st2) ++ [(p_name kwargs_param, BVarKw left_over)])
  | _ :: _, None => raise TypeError
  end.

(** [bound_arguments.apply_defaults()] *)
Fixpoint apply_defaults (sig : signature) (args : arguments) : arguments :=
  match sig with
  | [] => []
  | param :: rest =>
      match lookup (p_name param) args with
      | Some v => (p_name param, v) :: apply_defaults rest args
      | None =>
          match p_default param with
          | Some val => (p_name param, BVal val) :: apply_defaults rest args
          | None =>
              if kind_eqb (p_kind param) VAR_POSITIONAL
              then (p_name param, BVarArgs []) :: apply_defaults rest args
              else if kind_eqb (p_kind param) VAR_KEYWORD
              then (p_name param, BVarKw []) :: apply_defaults rest args
              else apply_defaults rest args
          end
      end
  end.

(** [injectable_args] is a string or an iterable of strings. *)
Inductive str_or_iterable : Type :=
| OneStr (s : string)
| Iter (l : list string).

(** [{injectable_args} if isinstance(injectable_args, str)
     else set(injectable_args)] *)
Definition injectable_set (injectable_args : str_or_iterable) : list string :=
  match injectable_args with
  | OneStr s => [s]
  | Iter l => nodup string_dec l
  end.

(** [set(keys) - injectable_args] *)
Definition set_difference (keys injectable : list string) : list string :=
  filter (fun k => negb (mem k injectable)) (nodup string_dec keys).

(** The set [static_args] that [wrapped_transform] computes. *)
Definition static_args_of (sig : signature) (injectable : list string)
  (args : list V) (kwargs : list (string * V)) : res (list string) :=
  bound_arguments <- signature_bind sig args kwargs ;;
  let bound_arguments := apply_defaults sig bound_arguments in
  ret (set_difference (map fst bound_arguments) injectable).

Definition static_inject_hyperparams (inner_factory : Factory)
  (injectable_args : str_or_iterable)
  : list V -> list (string * V) -> res GT :=
  let injectable_args := injectable_set injectable_args in
  let inner_signature := inspect_signature inner_factory in
  let wrapped_transform := fun args kwargs =>
    static_args <- static_args_of inner_signature injectable_args args kwargs ;;
    inject_hyperparams inner_factory static_args args kwargs in
  wrapped_transform.

End Inject.

(* ================================================================= *)
(** * Properties *)

(** Inversion of a successful monadic computation. *)
Ltac inv_res :=
  repeat match goal with
    | H : bind ?c _ = inr _ |- _ =>
        let E := fresh "E" in
        destruct c eqn:E; simpl in H; [discriminate H|]
    | H : ret _ = inr _ |- _ => unfold ret in H
    | H : inr _ = inr _ |- _ => inversion H; subst; clear H
    | H : inl _ = inr _ |- _ => discriminate H
    | H : raise _ = inr _ |- _ => discriminate H
    end.

(* ----------------------------------------------------------------- *)
(** ** Step counters *)

Lemma int32_add_one_below_max (c : Z) :
  Int32.in_range c -> (c < Int32.max_int)%Z -> Int32.add c 1 = (c + 1)%Z.
Proof.
  intros Hr Hlt. unfold Int32.add. apply Int32.wrap_id.
  unfold Int32.in_range, Int32.min_int, Int32.max_int in *. lia.
Qed.

Lemma int32_add_one_at_max : Int32.add Int32.max_int 1 = Int32.min_int.
Proof. reflexivity. Qed.

Lemma safe_increment_below_max (c : Z) :
  Int32.in_range c -> (c < Int32.max_int)%Z ->
  _safe_int32_increment c = (c + 1)%Z.
Proof.
  intros Hr Hlt. unfold _safe_int32_increment.
  destruct (Z.ltb_spec c Int32.max_int); [|lia].
  now apply int32_add_one_below_max.
Qed.

Lemma safe_increment_at_max :
  _safe_int32_increment Int32.max_int = Int32.max_int.
Proof. reflexivity. Qed.

Lemma safe_increment_in_range (c : Z) :
  Int32.in_range (_safe_int32_increment c).
Proof.
  unfold _safe_int32_increment.
  destruct (Z.ltb_spec c Int32.max_int).
  - apply Int32.wrap_in_range.
  - unfold Int32.in_range, Int32.min_int, Int32.max_int. lia.
Qed.

Section Counters.
Context {F : Type} {FL : Float F}.
Local Abbreviation pytree := (@pytree F).







Lemma bias_correction_count decay (updates : pytree) state params :
  fmap (fun r => bc_count (snd r))
       (update (bias_correction decay) updates state params)
  = inr (_safe_int32_increment (bc_count state)).
Proof. reflexivity. Qed.

End Counters.

(* ----------------------------------------------------------------- *)
(** ** Shapes and structure of tree operations *)

Section Signatures.
Context {F : Type} {FL : Float F}.
Local Abbreviation array := (@array F).
Local Abbreviation pytree := (@pytree F).

(** What decides whether a tree operation succeeds: the tree definition and
    the shapes of the leaves. *)
Definition sig_of (t : pytree) : treedef * list (list nat) :=
  (tdef t, map shape (leaves t)).

Definition sig_map2 (g1 g2 : treedef * list (list nat))
  : res (treedef * list (list nat)) :=
  if treedef_eqb (fst g1) (fst g2)
  then ss <- mapM2 amap2_shape (snd g1) (snd g2) ;; ret (fst g1, ss)
  else raise StructureError.

Lemma shape_eqb_refl s : shape_eqb s s = true.
Proof. unfold shape_eqb. destruct (list_eq_dec Nat.eq_dec s s); congruence. Qed.

Lemma shape_eqb_eq s1 s2 : shape_eqb s1 s2 = true -> s1 = s2.
Proof.
  unfold shape_eqb. destruct (list_eq_dec Nat.eq_dec s1 s2); congruence.
Qed.

Lemma treedef_eqb_refl d : treedef_eqb d d = true.
Proof. unfold treedef_eqb. destruct (list_eq_dec node_eq_dec d d); congruence. Qed.

Lemma treedef_eqb_eq d1 d2 : treedef_eqb d1 d2 = true -> d1 = d2.
Proof.
  unfold treedef_eqb. destruct (list_eq_dec node_eq_dec d1 d2); congruence.
Qed.

Lemma amap2_shape_ok (f : F -> F -> F) (a b : array) :
  fmap shape (amap2 f a b) = amap2_shape (shape a) (shape b).
Proof.
  unfold amap2, amap2_shape.
  destruct (shape_eqb (shape a) (shape b)); [reflexivity|].
  destruct (broadcast_shapes (shape a) (shape b)); reflexivity.
Qed.

Lemma mapM2_amap2_shapes (f : F -> F -> F) (l1 l2 : list array) :
  fmap (map shape) (mapM2 (amap2 f) l1 l2)
  = mapM2 amap2_shape (map shape l1) (map shape l2).
Proof.
  revert l2. induction l1 as [|a l1 IH]; intros [|b l2]; simpl; try reflexivity.
  rewrite <- amap2_shape_ok with (f := f), <- IH.
  destruct (amap2 f a b) as [e|c]; simpl; [reflexivity|].
  destruct (mapM2 (amap2 f) l1 l2); reflexivity.
Qed.

Lemma tree_map2_sig (f : F -> F -> F) (t1 t2 : pytree) :
  fmap sig_of (tree_map2 (amap2 f) t1 t2) = sig_map2 (sig_of t1) (sig_of t2).
Proof.
  unfold tree_map2, sig_map2, sig_of. simpl.
  destruct (treedef_eqb (tdef t1) (tdef t2)); [|reflexivity].
  rewrite <- mapM2_amap2_shapes with (f := f).
  destruct (mapM2 (amap2 f) (leaves t1) (leaves t2)); reflexivity.
Qed.

Lemma tree_map_sig (f : F -> F) (t : pytree) :
  sig_of (tree_map (amap f) t) = sig_of t.
Proof.
  unfold sig_of, tree_map. simpl. f_equal.
  rewrite map_map. reflexivity.
Qed.

Lemma bshape_refl s : bshape s s = Some s.
Proof.
  induction s as [|d s IH]; simpl; [reflexivity|].
  rewrite IH, Nat.eqb_refl. reflexivity.
Qed.

Lemma bshape_absorb s1 : forall s2 s,
  bshape s1 s2 = Some s -> bshape s1 s = Some s.
Proof.
  induction s1 as [|d1 r1 IH]; intros s2 s H.
  - simpl in *. reflexivity.
  - destruct s2 as [|d2 r2].
    + simpl in H. inversion H; subst. apply bshape_refl.
    + simpl in H. destruct (bshape r1 r2) as [r|] eqn:E; [|discriminate].
      apply IH in E.
      destruct (Nat.eqb_spec d1 d2) as [->|Hne].
      * inversion H; subst. simpl. rewrite E, Nat.eqb_refl. reflexivity.
      * destruct (Nat.eqb_spec d1 1) as [->|Hn1].
        -- inversion H; subst. simpl. rewrite E.
           destruct d2 as [|[|d2]]; reflexivity.
        -- destruct (Nat.eqb_spec d2 1) as [->|Hn2]; [|discriminate].
           inversion H; subst. simpl. rewrite E, Nat.eqb_refl. reflexivity.
Qed.

Lemma amap2_shape_absorb s1 s2 s :
  amap2_shape s1 s2 = inr s -> amap2_shape s1 s = inr s.
Proof.
  unfold amap2_shape. intros H.
  destruct (shape_eqb s1 s2) eqn:E.
  - inversion H; subst. rewrite shape_eqb_refl. reflexivity.
  - destruct (shape_eqb s1 s) eqn:E2.
    + apply shape_eqb_eq in E2. subst. reflexivity.
    + unfold broadcast_shapes in *.
      destruct (bshape (rev s1) (rev s2)) as [r|] eqn:B; simpl in H;
        [|discriminate].
      inversion H; subst. rewrite rev_involutive.
      rewrite (bshape_absorb _ _ B). reflexivity.
Qed.

Lemma sig_map2_absorb g1 g2 g :
  sig_map2 g1 g2 = inr g -> sig_map2 g1 g = inr g.
Proof.
  unfold sig_map2. destruct g1 as [d1 ss1], g2 as [d2 ss2]. simpl.
  destruct (treedef_eqb d1 d2); [|discriminate].
  intros H. inv_res. simpl. rewrite treedef_eqb_refl.
  assert (A : forall l1 l2 l, mapM2 amap2_shape l1 l2 = inr l ->
                              mapM2 amap2_shape l1 l = inr l).
  { clear. induction l1 as [|x l1 IH]; intros [|y l2] l H; simpl in *;
      try discriminate.
    - inversion H. reflexivity.
    - inv_res. simpl. rewrite (amap2_shape_absorb _ _ E). simpl.
      rewrite (IH _ _ E0). reflexivity. }
  rewrite (A _ _ _ E). reflexivity.
Qed.


End Signatures.

(* ----------------------------------------------------------------- *)
(** ** Adam and NAdam *)

Section AdamNAdam.
Context {F : Type} {FL : Float F}.
Local Abbreviation pytree := (@pytree F).






Lemma debias_sig (debias : bool) (t : pytree) decay count :
  sig_of (if debias then _bias_correction t decay count else t) = sig_of t.
Proof. destruct debias; [apply tree_map_sig|reflexivity]. Qed.


End AdamNAdam.

(* ----------------------------------------------------------------- *)
(** ** Layered adaptive RMS: the arrays made by init *)

Section LayeredArrays.
Context {F : Type} {FL : Float F}.
Local Abbreviation array := (@array F).
Local Abbreviation pytree := (@pytree F).

(** The training loop: the state is threaded through successive calls of
    [update], each with its gradients and (optional) parameters. *)
Fixpoint run_updates {S : Type} (T : GradientTransformation S)
  (steps : list (pytree * option pytree)) (state : S) : res S :=
  match steps with
  | [] => ret state
  | (updates, params) :: rest =>
      r <- update T updates state params ;;
      run_updates T rest (snd r)
  end.

Lemma layered_update_frame decays scales dd modality eps eps_root
  (updates : pytree) state params updates' state' :
  update (precondition_by_layered_adaptive_rms decays scales dd modality
            eps eps_root) updates state params = inr (updates', state') ->
  la_beta_array state' = la_beta_array state /\
  la_scale_array state' = la_scale_array state.
Proof. simpl. intros H. inv_res. simpl. split; reflexivity. Qed.

Lemma generate_per_parameter_array_shape_only dd modality arr (p p' : array) :
  shape p = shape p' ->
  _generate_per_parameter_array dd modality arr p
  = _generate_per_parameter_array dd modality arr p'.
Proof.
  intros H. unfold _generate_per_parameter_array, ndim. rewrite H. reflexivity.
Qed.

Lemma mapM_shape_only (f : array -> res array) :
  (forall a b, shape a = shape b -> f a = f b) ->
  forall l l', map shape l = map shape l' -> mapM f l = mapM f l'.
Proof.
  intros Hf. induction l as [|a l IH]; intros [|b l'] H; simpl in *;
    try discriminate; [reflexivity|].
  inversion H. rewrite (Hf a b) by assumption. rewrite (IH l') by assumption.
  reflexivity.
Qed.

(** The arrays of the initial state depend on the parameters through their
    structure and shapes only. *)
Lemma layered_init_arrays_shape_only decays scales dd modality eps eps_root
  (params params' : pytree) :
  congruent params params' ->
  fmap (fun s => (la_beta_array s, la_scale_array s))
    (init (precondition_by_layered_adaptive_rms decays scales dd modality
             eps eps_root) params)
  = fmap (fun s => (la_beta_array s, la_scale_array s))
      (init (precondition_by_layered_adaptive_rms decays scales dd modality
               eps eps_root) params').
Proof.
  intros [Hd Hs]. simpl. unfold tree_mapM.
  rewrite (mapM_shape_only _
             (generate_per_parameter_array_shape_only dd modality decays)
             _ _ Hs).
  rewrite (mapM_shape_only _
             (generate_per_parameter_array_shape_only dd modality scales)
             _ _ Hs).
  rewrite Hd.
  destruct (mapM _ (leaves params')); simpl; [reflexivity|].
  destruct (mapM _ (leaves params')); reflexivity.
Qed.

(** C5. [init] computes [beta_array] and [scale_array] from the partition
    scheme and the parameters, leaf by leaf with
    [_generate_per_parameter_array]; every state reached from the initial
    state by any number of [update] calls still holds exactly these two
    arrays: an update returns them unchanged, whatever it does to [count]
    and [nu]. *)
Theorem layered_adaptive_rms_arrays_computed_once
  decays scales dd modality eps eps_root
  (params : pytree) (steps : list (pytree * option pytree)) state0 stateN :
  let T := precondition_by_layered_adaptive_rms decays scales dd modality
             eps eps_root in
  init T params = inr state0 ->
  run_updates T steps state0 = inr stateN ->
  tree_mapM (_generate_per_parameter_array dd modality decays) params
    = inr (la_beta_array state0) /\
  tree_mapM (_generate_per_parameter_array dd modality scales) params
    = inr (la_scale_array state0) /\
  la_beta_array stateN = la_beta_array state0 /\
  la_scale_array stateN = la_scale_array state0.
Proof.
  intros T Hinit Hrun.
  assert (Hfix : la_beta_array stateN = la_beta_array state0 /\
                 la_scale_array stateN = la_scale_array state0).
  { clear Hinit. revert state0 Hrun.
    induction steps as [|[u p] rest IH]; intros s0 Hrun.
    - simpl in Hrun. inv_res. split; reflexivity.
    - cbn [run_updates] in Hrun.
      destruct (update T u s0 p) as [e|[u' s1]] eqn:E; simpl in Hrun;
        [discriminate|].
      apply layered_update_frame in E. destruct E as [E1 E2].
      destruct (IH _ Hrun) as [I1 I2]. split; congruence. }
  destruct Hfix as [Hb Hs].
  unfold T in Hinit. simpl in Hinit. inv_res. simpl.
  repeat split; assumption.
Qed.

End LayeredArrays.

(* ----------------------------------------------------------------- *)
(** ** Weight decay *)

Section WeightDecay.
Context {F : Type} {FL : Float F}.
Local Abbreviation array := (@array F).
Local Abbreviation pytree := (@pytree F).

(** The element-wise combination of two arrays of one shape. *)
Definition zip_arrays (f : F -> F -> F) (a b : array) : array :=
  mk_array (shape a) (zip_with f (data a) (data b)).



Lemma mapM2_amap2_same_shapes (f : F -> F -> F) (l1 l2 : list array) :
  map shape l1 = map shape l2 ->
  mapM2 (amap2 f) l1 l2 = inr (zip_with (zip_arrays f) l1 l2).
Proof.
  revert l2. induction l1 as [|a l1 IH]; intros [|b l2] H; simpl in *;
    try discriminate; [reflexivity|].
  inversion H as [[Hs Hr]].
  unfold amap2 at 1. rewrite Hs, shape_eqb_refl. simpl.
  rewrite (IH _ Hr). simpl. unfold zip_arrays at 2. rewrite Hs. reflexivity.
Qed.

(** On congruent trees an element-wise operation succeeds, keeps the
    structure and the shapes, and combines the leaves pairwise. *)
Lemma tree_map2_congruent (f : F -> F -> F) (t1 t2 : pytree) :
  congruent t1 t2 ->
  tree_map2 (amap2 f) t1 t2
  = inr (mk_pytree (tdef t1) (zip_with (zip_arrays f) (leaves t1) (leaves t2))).
Proof.
  intros [Hd Hs]. unfold tree_map2.
  rewrite <- Hd, treedef_eqb_refl, (mapM2_amap2_same_shapes f _ _ Hs).
  reflexivity.
Qed.

Lemma zip_arrays_shapes (f : F -> F -> F) (l1 l2 : list array) :
  map shape l1 = map shape l2 ->
  map shape (zip_with (zip_arrays f) l1 l2) = map shape l1.
Proof.
  revert l2. induction l1 as [|a l1 IH]; intros [|b l2] H; simpl in *;
    try discriminate; [reflexivity|].
  inversion H. f_equal. now apply IH.
Qed.


End WeightDecay.

(* ----------------------------------------------------------------- *)
(** ** Exact arithmetic: basic facts *)

Import XReal.

Section XRealFacts.
Local Open Scope R_scope.

Lemma xdiv_fin (a b : R) : b <> 0 -> xdiv (Fin a) (Fin b) = Fin (a / b).
Proof. intros H. simpl. destruct (Req_dec_T b 0); [contradiction|reflexivity]. Qed.


Lemma xeqb_refl_fin (a : R) : xeqb (Fin a) (Fin a) = true.
Proof. simpl. destruct (Req_dec_T a a); congruence. Qed.

Lemma fhalf_xreal : @fhalf xreal _ = Fin (1 / 2).
Proof. unfold fhalf. simpl f_of_Z. apply xdiv_fin. lra. Qed.

Lemma raise_power_of_half : raise_power_of (Fin (1 / 2)) = xsqrt.
Proof.
  unfold raise_power_of. rewrite fhalf_xreal.
  change (feqb (Fin (1 / 2)) (Fin (1 / 2))) with (xeqb (Fin (1 / 2)) (Fin (1 / 2))).
  rewrite xeqb_refl_fin. reflexivity.
Qed.

Lemma xleb_fin (a b : R) : xleb (Fin a) (Fin b) = true <-> a <= b.
Proof. simpl. destruct (Rle_dec a b); split; intros; try discriminate; auto; contradiction. Qed.


End XRealFacts.

(* ----------------------------------------------------------------- *)
(** ** One step of Adam *)

Section AdamExample.
Local Open Scope R_scope.

(** The 1-d array [[x]] as a one-leaf tree. *)
Definition vec1 (x : xreal) : pytree := leaf (mk_array [1%nat] [x]).










End AdamExample.

(* ----------------------------------------------------------------- *)
(** ** Clipping *)

Section Clipping.
Local Open Scope R_scope.
Local Abbreviation array := (@array xreal).











End Clipping.

(* ----------------------------------------------------------------- *)
(** ** The partition of layered adaptive RMS *)

Section Partition.
Local Open Scope R_scope.

Definition zsum (l : list Z) : Z := fold_right Z.add 0%Z l.
Definition rsum (l : list R) : R := fold_right Rplus 0 l.

(** [floor(decay_distribution[i] * L)] for every [i]. *)
Definition floors (ds : list R) (L : nat) : list Z :=
  map (fun d => Zfloor (d * IZR (Z.of_nat L))) ds.

Lemma floors_nonneg ds L :
  Forall (fun d => 0 <= d) ds -> Forall (fun z => (0 <= z)%Z) (floors ds L).
Proof.
  intros H. unfold floors. rewrite Forall_map.
  eapply Forall_impl; [|exact H]. intros d Hd. simpl.
  apply Zfloor_lub. apply Rmult_le_pos; [exact Hd|].
  apply IZR_le. lia.
Qed.

Lemma floors_sum_le ds L :
  IZR (zsum (floors ds L)) <= rsum ds * IZR (Z.of_nat L).
Proof.
  induction ds as [|d ds IH]; simpl.
  - lra.
  - rewrite plus_IZR.
    pose proof (Zfloor_bound (d * IZR (Z.of_nat L))). lra.
Qed.

Lemma zsum_nonneg_bound l :
  Forall (fun z => (0 <= z)%Z) l ->
  (0 <= zsum l)%Z /\ Forall (fun z => (z <= zsum l)%Z) l.
Proof.
  induction 1 as [|z l Hz Hl [IH1 IH2]]; simpl.
  - split; [lia|constructor].
  - split; [lia|]. constructor; [lia|].
    eapply Forall_impl; [|exact IH2]. simpl. intros. lia.
Qed.

Lemma x_to_int32_of_Z (z : Z) :
  Int32.in_range z -> x_to_int32 (Fin (IZR z)) = z.
Proof.
  intros Hr. simpl.
  destruct (Rlt_dec (IZR z) 0).
  - rewrite ZfloorNZ, Z.opp_involutive. now apply Int32.clamp_id.
  - rewrite ZfloorZ. now apply Int32.clamp_id.
Qed.

Lemma int32_floors ds L :
  Forall (fun z => Int32.in_range z) (floors ds L) ->
  map (fun d : xreal => f_to_int32 (ffloor (fmul d (f_of_Z (Z.of_nat L)))))
      (map Fin ds)
  = floors ds L.
Proof.
  unfold floors. rewrite map_map, Forall_map. intros H.
  apply map_ext_in. intros d Hd.
  rewrite Forall_forall in H. specialize (H d Hd).
  change (x_to_int32 (Fin (IZR (Zfloor (d * IZR (Z.of_nat L)))))
          = Zfloor (d * IZR (Z.of_nat L))).
  now apply x_to_int32_of_Z.
Qed.

Lemma int32_sum_exact l : forall acc,
  Forall (fun z => (0 <= z)%Z) l ->
  (0 <= acc)%Z -> (acc + zsum l <= Int32.max_int)%Z ->
  fold_left Int32.add l acc = (acc + zsum l)%Z.
Proof.
  induction l as [|z l IH]; intros acc Hl Hacc Hmax; simpl in *.
  - lia.
  - inversion Hl; subst.
    destruct (zsum_nonneg_bound H2) as [Hs _].
    assert (E : Int32.add acc z = (acc + z)%Z).
    { unfold Int32.add. apply Int32.wrap_id.
      unfold Int32.in_range, Int32.min_int, Int32.max_int in *. lia. }
    rewrite E, IH; [lia|assumption|lia|lia].
Qed.

Lemma int32_sub_add (a b c : Z) :
  Int32.sub (Int32.add a b) c = Int32.wrap (a + b - c).
Proof.
  unfold Int32.sub, Int32.add, Int32.wrap. f_equal.
  replace ((a + b + 2 ^ 31) mod 2 ^ 32 - 2 ^ 31 - c + 2 ^ 31)%Z
    with ((a + b + 2 ^ 31) mod 2 ^ 32 + - c)%Z by lia.
  rewrite Zplus_mod_idemp_l. f_equal. lia.
Qed.

Lemma zsum_app l1 l2 : zsum (l1 ++ l2) = (zsum l1 + zsum l2)%Z.
Proof. induction l1; simpl; lia. Qed.

Lemma zsum_set_last l v :
  l <> [] -> zsum (set_last l v) = (zsum l - last l 0%Z + v)%Z.
Proof.
  intros Hne. destruct l as [|x l]; [contradiction|].
  unfold set_last.
  rewrite (app_removelast_last 0%Z Hne) at 2.
  rewrite !zsum_app. simpl. lia.
Qed.

Lemma repeat_counts_length {A} (xs : list A) (ns : list Z) :
  length xs = length ns ->
  Forall (fun z => (0 <= z)%Z) ns ->
  Z.of_nat (length (concat (zip_with (fun x n => repeat x (Z.to_nat n)) xs ns)))
  = zsum ns.
Proof.
  revert ns. induction xs as [|x xs IH]; intros [|n ns] Hlen Hns; simpl in *;
    try discriminate; [reflexivity|].
  inversion Hns; subst.
  rewrite length_app, repeat_length, Nat2Z.inj_add, IH by (auto; lia).
  lia.
Qed.

Lemma set_last_length {A} (l : list A) v : length (set_last l v) = length l.
Proof.
  destruct l as [|x l]; [reflexivity|].
  unfold set_last.
  rewrite (app_removelast_last x (l := x :: l)) at 2 by discriminate.
  rewrite !length_app. reflexivity.
Qed.

Lemma set_last_nonneg l v :
  Forall (fun z => (0 <= z)%Z) l -> (0 <= v)%Z ->
  Forall (fun z => (0 <= z)%Z) (set_last l v).
Proof.
  intros Hl Hv. destruct l as [|x l]; [constructor|].
  unfold set_last. apply Forall_app. split; [|repeat constructor; exact Hv].
  rewrite Forall_forall in *. intros z Hz. apply Hl.
  rewrite (app_removelast_last 0%Z (l := x :: l)) by discriminate.
  apply in_or_app. now left.
Qed.


End Partition.

(* ----------------------------------------------------------------- *)
(** ** extract_field *)

Section ExtractField.

(** The slots of a tuple, in order. *)
Definition elements (state : pyval) : list pyval :=
  match state with
  | VTuple elems => elems
  | VNamedTuple slots => map snd slots
  | _ => []
  end.

(** The first result that is not [None], [None] when there is none. *)
Fixpoint first_match (results : list (res pyval)) : res pyval :=
  match results with
  | [] => ret VNone
  | inl e :: _ => inl e
  | inr v :: rest => if is_none v then first_match rest else ret v
  end.

(** A namedtuple with a field [name] occurs in [v], at any depth and inside
    any container. *)
Fixpoint field_anywhere (name : string) (v : pyval) : bool :=
  match v with
  | VList l => existsb (field_anywhere name) l
  | VDict items => existsb (fun kv => field_anywhere name (snd kv)) items
  | VTuple elems => existsb (field_anywhere name) elems
  | VNamedTuple slots =>
      mem name (map fst slots)
      || existsb (fun kv => field_anywhere name (snd kv)) slots
  | _ => false
  end.

(** A namedtuple with a field [name] occurs in the tuple [v], reached
    through slots that are tuples themselves. *)
Fixpoint field_in_tuples (name : string) (v : pyval) : bool :=
  match v with
  | VTuple elems => existsb (field_in_tuples name) elems
  | VNamedTuple slots =>
      mem name (map fst slots)
      || existsb (fun kv => field_in_tuples name (snd kv)) slots
  | _ => false
  end.

(** Induction on nested values. *)
Fixpoint pyval_nested_ind (P : pyval -> Prop)
  (HNone : P VNone) (HInt : forall z, P (VInt z)) (HStr : forall s, P (VStr s))
  (HList : forall l, Forall P l -> P (VList l))
  (HDict : forall items, Forall (fun kv => P (snd kv)) items -> P (VDict items))
  (HTuple : forall elems, Forall P elems -> P (VTuple elems))
  (HNamed : forall slots, Forall (fun kv => P (snd kv)) slots ->
                          P (VNamedTuple slots))
  (v : pyval) {struct v} : P v :=
  let rec := pyval_nested_ind HNone HInt HStr HList HDict HTuple HNamed in
  match v with
  | VNone => HNone
  | VInt z => HInt z
  | VStr s => HStr s
  | VList l =>
      HList l ((fix go (l : list pyval) : Forall P l :=
                  match l with
                  | [] => Forall_nil _
                  | x :: l' => Forall_cons x (rec x) (go l')
                  end) l)
  | VDict items =>
      HDict items
        ((fix go (l : list (string * pyval)) : Forall (fun kv => P (snd kv)) l :=
            match l with
            | [] => Forall_nil _
            | kv :: l' =>
                @Forall_cons _ (fun kv => P (snd kv)) kv l' (rec (snd kv)) (go l')
            end) items)
  | VTuple elems =>
      HTuple elems ((fix go (l : list pyval) : Forall P l :=
                       match l with
                       | [] => Forall_nil _
                       | x :: l' => Forall_cons x (rec x) (go l')
                       end) elems)
  | VNamedTuple slots =>
      HNamed slots
        ((fix go (l : list (string * pyval)) : Forall (fun kv => P (snd kv)) l :=
            match l with
            | [] => Forall_nil _
            | kv :: l' =>
                @Forall_cons _ (fun kv => P (snd kv)) kv l' (rec (snd kv)) (go l')
            end) slots)
  end.

Lemma mem_lookup {A} (name : string) (d : list (string * A)) :
  mem name (map fst d) = is_some (lookup name d).
Proof.
  induction d as [|[k v] d IH]; simpl; [reflexivity|].
  destruct (String.eqb name k); simpl; [reflexivity|exact IH].
Qed.

(** A non-tuple argument fails the assertion. *)
Lemma extract_field_not_tuple (state : pyval) (name : string) :
  is_tuple state = false -> extract_field state name = inl AssertionError.
Proof. destruct state; simpl; intros H; try discriminate; reflexivity. Qed.

(** On a tuple: the field of the tuple itself when it has one of that name,
    and otherwise the first result that is not [None] among the results for
    the slots that are tuples, in order. *)
Lemma extract_field_tuple (state : pyval) (name : string) :
  is_tuple state = true ->
  extract_field state name
  = if has_field state name then getattr state name
    else first_match
           (map (fun e => extract_field e name) (filter is_tuple (elements state))).
Proof.
  destruct state as [| | | | |elems|slots]; intros H; try discriminate.
  - clear H. cbn [extract_field is_tuple negb has_field elements].
    induction elems as [|e elems IH]; [reflexivity|].
    cbn [filter map]. destruct (is_tuple e); [|exact IH].
    cbn [map first_match].
    destruct (extract_field e name) as [err|v]; [reflexivity|].
    cbn [bind]. destruct (is_none v); [exact IH|reflexivity].
  - clear H. cbn [extract_field is_tuple negb has_field elements].
    destruct (mem name (map fst slots)); [reflexivity|].
    induction slots as [|[k e] slots IH]; [reflexivity|].
    cbn [filter map snd]. destruct (is_tuple e); [|exact IH].
    cbn [map first_match].
    destruct (extract_field e name) as [err|v]; [reflexivity|].
    cbn [bind]. destruct (is_none v); [exact IH|reflexivity].
Qed.

Lemma first_match_all_none (l : list pyval) (f : pyval -> res pyval) :
  Forall (fun e => f e = inr VNone) l -> first_match (map f l) = inr VNone.
Proof.
  induction 1 as [|e l He Hl IH]; simpl; [reflexivity|].
  rewrite He. simpl. exact IH.
Qed.

(** No field reachable through tuples: the result is [None]. *)
Lemma extract_field_unreachable (name : string) (state : pyval) :
  is_tuple state = true -> field_in_tuples name state = false ->
  extract_field state name = inr VNone.
Proof.
  induction state as [| | | | |elems IH|slots IH] using pyval_nested_ind;
    intros Ht Hf; try discriminate.
  - rewrite extract_field_tuple by exact Ht. cbn [has_field elements].
    apply first_match_all_none. simpl in Hf.
    induction elems as [|e elems IHl]; [constructor|].
    simpl in Hf. apply orb_false_iff in Hf. destruct Hf as [Hf1 Hf2].
    inversion IH; subst. simpl.
    destruct (is_tuple e) eqn:Et; [constructor; auto|auto].
  - rewrite extract_field_tuple by exact Ht. cbn [has_field elements].
    simpl in Hf. apply orb_false_iff in Hf. destruct Hf as [Hm Hf].
    rewrite Hm.
    apply first_match_all_none.
    induction slots as [|[k e] slots IHl]; [constructor|].
    simpl in Hf. apply orb_false_iff in Hf. destruct Hf as [Hf1 Hf2].
    simpl in Hm. apply orb_false_iff in Hm. destruct Hm as [_ Hm].
    inversion IH; subst. simpl in *.
    destruct (is_tuple e) eqn:Et; [constructor; auto|auto].
Qed.

Lemma field_in_tuples_anywhere (name : string) (v : pyval) :
  field_in_tuples name v = true -> field_anywhere name v = true.
Proof.
  induction v as [| | | | |elems IH|slots IH] using pyval_nested_ind;
    intros Hf; try discriminate; simpl in *.
  - induction elems as [|e elems IHl]; [discriminate|].
    apply Forall_cons_iff in IH. destruct IH as [IHe IHr]. simpl in *.
    apply orb_true_iff in Hf. apply orb_true_iff.
    destruct Hf; [left|right]; auto.
  - apply orb_true_iff in Hf. apply orb_true_iff.
    destruct Hf as [Hf|Hf]; [now left|right].
    induction slots as [|[k e] slots IHl]; [discriminate|].
    apply Forall_cons_iff in IH. destruct IH as [IHe IHr]. simpl in *.
    apply orb_true_iff in Hf. apply orb_true_iff.
    destruct Hf; [left|right]; auto.
Qed.

Local Open Scope string_scope.

(** The nested tuple [A(x=B(y=5), z=3)]. *)
Definition example_B : pyval := VNamedTuple [("y", VInt 5)].
Definition example_A : pyval := VNamedTuple [("x", example_B); ("z", VInt 3)].

(** C8. On a nested tuple, [extract_field] returns the value of the field of
    that name of the top-level tuple when it has one; otherwise it is the
    first result that is not [None] among the results of [extract_field] on
    the elements that are tuples themselves, taken in element order (and
    [None] when there is no such result); it is [None] when no field of that
    name occurs anywhere in the value.  In particular
    [extract_field(A(x=B(y=5), z=3), 'y')] is 5 and
    [extract_field(A(...), 'nonexistent')] is [None]. *)
Theorem extract_field_spec (field_name : string) :
  (forall slots v,
     lookup field_name slots = Some v ->
     extract_field (VNamedTuple slots) field_name = inr v) /\
  (forall state,
     is_tuple state = true -> has_field state field_name = false ->
     extract_field state field_name
     = first_match (map (fun element => extract_field element field_name)
                        (filter is_tuple (elements state)))) /\
  (forall state,
     is_tuple state = true -> field_anywhere field_name state = false ->
     extract_field state field_name = inr VNone) /\
  extract_field example_A "y" = inr (VInt 5) /\
  extract_field example_A "nonexistent" = inr VNone.
Proof.
  split; [|split; [|split; [|split]]].
  - intros slots v Hl.
    rewrite extract_field_tuple by reflexivity.
    cbn [has_field getattr]. rewrite mem_lookup, Hl. reflexivity.
  - intros state Ht Hf. rewrite extract_field_tuple by exact Ht.
    rewrite Hf. reflexivity.
  - intros state Ht Hf. apply extract_field_unreachable; [exact Ht|].
    destruct (field_in_tuples field_name state) eqn:E; [|reflexivity].
    apply field_in_tuples_anywhere in E. congruence.
  - reflexivity.
  - reflexivity.
Qed.

(** A value in which the field [y] only occurs inside a list and inside a
    dict. *)
Definition example_hidden : pyval :=
  VTuple [VList [example_B]; VDict [("k", example_B)]; VInt 3].

(** C10. [extract_field] requires a tuple: on every argument that is not a
    tuple (a dict, a list, [None], ...) the assertion fails, no [None] is
    returned.  The search only descends into elements that are tuples: when
    no field of that name is reached through tuples the result is [None],
    whatever the other slots hold; a field inside a list or a dict is not
    found. *)
Theorem extract_field_requires_tuples (field_name : string) :
  (forall state,
     is_tuple state = false ->
     extract_field state field_name = inl AssertionError) /\
  (forall state,
     is_tuple state = true -> field_in_tuples field_name state = false ->
     extract_field state field_name = inr VNone) /\
  extract_field (VDict [("y", VInt 5)]) "y" = inl AssertionError /\
  extract_field VNone "y" = inl AssertionError /\
  field_anywhere "y" example_hidden = true /\
  extract_field example_hidden "y" = inr VNone.
Proof.
  split; [|split; [|repeat split]].
  - intros state. apply extract_field_not_tuple.
  - intros state. apply extract_field_unreachable.
Qed.

End ExtractField.

(* ----------------------------------------------------------------- *)
(** ** static_inject_hyperparams *)

Section InjectProperties.
Variable V : Type.
Variable Factory : Type.
Variable GT : Type.
Variable inspect_signature : Factory -> signature V.
Variable inject_hyperparams :
  Factory -> list string -> list V -> list (string * V) -> res GT.

(** The parameter has a value among the bound arguments. *)
Definition bound_in (ba : arguments V) (p : parameter V) : bool :=
  is_some (lookup (p_name p) ba).

(** The parameter gets a value from [apply_defaults] when it is not bound:
    it has a default, or it is [*args] or [**kwargs]. *)
Definition has_default (p : parameter V) : bool :=
  is_some (p_default p)
  || kind_eqb (p_kind p) VAR_POSITIONAL
  || kind_eqb (p_kind p) VAR_KEYWORD.

Definition covered (ba : arguments V) (p : parameter V) : bool :=
  bound_in ba p || has_default p.

Lemma lookup_app_l {A} (name : string) (d1 d2 : list (string * A)) :
  is_some (lookup name d1) = true -> is_some (lookup name (d1 ++ d2)) = true.
Proof.
  induction d1 as [|[k v] d1 IH]; simpl; [discriminate|].
  destruct (String.eqb name k); [reflexivity|exact IH].
Qed.

Lemma lookup_app_last {A} (name : string) (d : list (string * A)) (v : A) :
  is_some (lookup name (d ++ [(name, v)])) = true.
Proof.
  induction d as [|[k w] d IH]; simpl.
  - rewrite String.eqb_refl. reflexivity.
  - destruct (String.eqb name k); [reflexivity|exact IH].
Qed.

Lemma covered_app (ba ext : arguments V) (p : parameter V) :
  covered ba p = true -> covered (ba ++ ext) p = true.
Proof.
  unfold covered, bound_in. intros H. apply orb_true_iff in H.
  apply orb_true_iff. destruct H as [H|H]; [left|right; exact H].
  now apply lookup_app_l.
Qed.

Lemma bind_positional_covers (args : list V) :
  forall params kwargs acc acc' rest,
  bind_positional params args kwargs acc = inr (acc', rest) ->
  exists consumed ext,
    params = consumed ++ rest /\ acc' = acc ++ ext /\
    Forall (fun p => covered acc' p = true) consumed.
Proof.
  induction args as [|a args IH]; intros params kwargs acc acc' rest H.
  - destruct params as [|param ps]; simpl in H.
    + inv_res. exists [], []. rewrite !app_nil_r. repeat split. constructor.
    + destruct (kind_eqb (p_kind param) VAR_POSITIONAL) eqn:Ek.
      * inv_res. exists [param], []. rewrite !app_nil_r. repeat split.
        constructor; [|constructor].
        unfold covered, has_default. rewrite Ek.
        rewrite orb_true_r. simpl. apply orb_true_r.
      * assert (Hstay : acc' = acc /\ rest = param :: ps).
        { destruct (is_some (lookup (p_name param) kwargs)).
          - destruct (kind_eqb (p_kind param) POSITIONAL_ONLY); inv_res.
            split; reflexivity.
          - destruct (kind_eqb (p_kind param) VAR_KEYWORD
                      || is_some (p_default param)); inv_res.
            split; reflexivity. }
        destruct Hstay as [-> ->].
        exists [], []. rewrite !app_nil_r. repeat split. constructor.
  - destruct params as [|param ps]; simpl in H; [discriminate|].
    destruct (kind_eqb (p_kind param) VAR_KEYWORD
              || kind_eqb (p_kind param) KEYWORD_ONLY); [discriminate|].
    destruct (kind_eqb (p_kind param) VAR_POSITIONAL).
    + inv_res. exists [param], [(p_name param, BVarArgs (a :: args))].
      repeat split. constructor; [|constructor].
      unfold covered, bound_in. rewrite lookup_app_last. reflexivity.
    + destruct (is_some (lookup (p_name param) kwargs)
                && negb (kind_eqb (p_kind param) POSITIONAL_ONLY));
        [discriminate|].
      apply IH in H. destruct H as (consumed & ext & Hp & Ha & Hc).
      exists (param :: consumed), ((p_name param, BVal a) :: ext).
      subst. rewrite <- app_assoc. repeat split.
      constructor; [|rewrite <- app_assoc in Hc; exact Hc].
      unfold covered, bound_in.
      change (acc ++ (p_name param, BVal a) :: ext)
        with (acc ++ [(p_name param, BVal a)] ++ ext).
      rewrite app_assoc, lookup_app_l; [reflexivity|apply lookup_app_last].
Qed.

Lemma bind_keywords_covers (params : signature V) :
  forall kwargs kwp acc acc' kwargs' kwp',
  bind_keywords params kwargs kwp acc = inr (acc', kwargs', kwp') ->
  exists ext, acc' = acc ++ ext /\
              Forall (fun p => covered acc' p = true) params.
Proof.
  induction params as [|param ps IH]; intros kwargs kwp acc acc' kwargs' kwp' H;
    simpl in H.
  - inv_res. exists []. rewrite !app_nil_r. split; [reflexivity|constructor].
  - destruct (kind_eqb (p_kind param) VAR_KEYWORD) eqn:Ekw.
    { apply IH in H. destruct H as (ext & -> & Hc). exists ext.
      split; [reflexivity|]. constructor; [|exact Hc].
      unfold covered, has_default. rewrite Ekw. rewrite !orb_true_r.
      reflexivity. }
    destruct (kind_eqb (p_kind param) VAR_POSITIONAL) eqn:Evp.
    { apply IH in H. destruct H as (ext & -> & Hc). exists ext.
      split; [reflexivity|]. constructor; [|exact Hc].
      unfold covered, has_default. rewrite Evp. rewrite orb_true_r.
      simpl. apply orb_true_r. }
    destruct (lookup (p_name param) kwargs) as [arg_val|].
    + destruct (kind_eqb (p_kind param) POSITIONAL_ONLY); [discriminate|].
      apply IH in H. destruct H as (ext & -> & Hc).
      exists ((p_name param, BVal arg_val) :: ext).
      rewrite <- app_assoc. split; [reflexivity|].
      constructor; [|rewrite <- app_assoc in Hc; exact Hc].
      unfold covered, bound_in.
      change (acc ++ (p_name param, BVal arg_val) :: ext)
        with (acc ++ [(p_name param, BVal arg_val)] ++ ext).
      rewrite app_assoc, lookup_app_l; [reflexivity|apply lookup_app_last].
    + destruct (is_some (p_default param)) eqn:Ed; [|discriminate].
      apply IH in H. destruct H as (ext & -> & Hc). exists ext.
      split; [reflexivity|]. constructor; [|exact Hc].
      unfold covered, has_default. rewrite Ed. simpl. apply orb_true_r.
Qed.

(** After a successful [bind], every parameter is bound or has a default. *)
Lemma signature_bind_covers (sig : signature V) args kwargs ba :
  signature_bind sig args kwargs = inr ba ->
  Forall (fun p => covered ba p = true) sig.
Proof.
  unfold signature_bind. intros H.
  destruct (bind_positional sig args kwargs []) as [|[acc1 rest]] eqn:E1;
    simpl in H; [discriminate|].
  destruct (bind_keywords rest kwargs None acc1) as [|[[acc2 kw2] kwp2]] eqn:E2;
    simpl in H; [discriminate|].
  apply bind_positional_covers in E1.
  destruct E1 as (consumed & ext1 & -> & -> & Hc1).
  apply bind_keywords_covers in E2. destruct E2 as (ext2 & -> & Hc2).
  assert (Hall : Forall (fun p => covered (([] ++ ext1) ++ ext2) p = true)
                        (consumed ++ rest)).
  { apply Forall_app. split; [|exact Hc2].
    eapply Forall_impl; [|exact Hc1]. intros p Hp. now apply covered_app. }
  destruct kw2 as [|kv kw2].
  - inv_res. exact Hall.
  - destruct kwp2 as [kwargs_param|]; [|discriminate]. inv_res.
    eapply Forall_impl; [|exact Hall]. intros p Hp. now apply covered_app.
Qed.

(** [apply_defaults] gives every covered parameter a value, in the order of
    the signature. *)
Lemma apply_defaults_names (ba : arguments V) (sig : signature V) :
  Forall (fun p => covered ba p = true) sig ->
  map fst (apply_defaults sig ba) = map (@p_name V) sig.
Proof.
  induction 1 as [|p sig Hp Hs IH]; simpl; [reflexivity|].
  unfold covered, bound_in, has_default in Hp.
  destruct (lookup (p_name p) ba); simpl; [now rewrite IH|].
  destruct (p_default p); simpl; [now rewrite IH|].
  simpl in Hp.
  destruct (kind_eqb (p_kind p) VAR_POSITIONAL); simpl; [now rewrite IH|].
  destruct (kind_eqb (p_kind p) VAR_KEYWORD); simpl; [now rewrite IH|].
  discriminate.
Qed.

Lemma mem_In (name : string) (l : list string) :
  mem name l = true <-> In name l.
Proof.
  unfold mem. rewrite existsb_exists. split.
  - intros (x & Hx & He). apply String.eqb_eq in He. now subst.
  - intros H. exists name. split; [exact H|apply String.eqb_refl].
Qed.

Lemma set_difference_In (keys injectable : list string) (name : string) :
  In name (set_difference keys injectable)
  <-> In name keys /\ ~ In name injectable.
Proof.
  unfold set_difference. rewrite filter_In, nodup_In, negb_true_iff.
  rewrite <- mem_In with (l := injectable).
  destruct (mem name injectable); intuition congruence.
Qed.

Lemma injectable_set_In (injectable_args : str_or_iterable) (name : string) :
  In name (injectable_set injectable_args)
  <-> match injectable_args with
      | OneStr s => name = s
      | Iter l => In name l
      end.
Proof.
  destruct injectable_args as [s|l]; simpl.
  - split; [intros [H|[]]; now subst|intros ->; now left].
  - apply nodup_In.
Qed.

(** C9. For every factory and every call that its signature accepts: after
    [bind] and [apply_defaults] the bound arguments are exactly the
    parameters of the factory, so the set of static arguments handed to
    [optax.inject_hyperparams] is the full parameter set minus
    [injectable_args].  Hence every parameter that is not in
    [injectable_args] is static, whether the caller passed it or not, and a
    parameter that is not static is one of [injectable_args]. *)
Theorem static_inject_hyperparams_static_args
  (inner_factory : Factory) (injectable_args : str_or_iterable)
  (args : list V) (kwargs : list (string * V))
  (bound_arguments : arguments V) :
  let sig := inspect_signature inner_factory in
  let names := map (@p_name V) sig in
  let injectable := injectable_set injectable_args in
  signature_bind sig args kwargs = inr bound_arguments ->
  exists static_args,
    map fst (apply_defaults sig bound_arguments) = names /\
    static_args_of sig injectable args kwargs = inr static_args /\
    static_inject_hyperparams inspect_signature inject_hyperparams
      inner_factory injectable_args args kwargs
    = inject_hyperparams inner_factory static_args args kwargs /\
    (forall name,
       In name static_args <-> In name names /\ ~ In name injectable) /\
    (forall p, In p sig -> ~ In (p_name p) injectable ->
               In (p_name p) static_args) /\
    (forall name, In name names -> ~ In name static_args ->
                  In name injectable).
Proof.
  intros sig names injectable Hbind.
  pose proof (@apply_defaults_names _ _ (signature_bind_covers _ _ _ Hbind)) as Hn.
  fold names in Hn.
  exists (set_difference names injectable).
  split; [exact Hn|].
  split; [unfold static_args_of; rewrite Hbind; simpl; rewrite Hn; reflexivity|].
  split.
  { unfold static_inject_hyperparams, static_args_of.
    fold sig. fold injectable. rewrite Hbind. simpl. rewrite Hn. reflexivity. }
  split; [intros name; apply set_difference_In|].
  split.
  - intros p Hp Hni. apply set_difference_In. split; [|exact Hni].
    unfold names. now apply in_map.
  - intros name Hin Hns.
    destruct (in_dec string_dec name injectable) as [Hi|Hi]; [exact Hi|].
    exfalso. apply Hns. apply set_difference_In. split; assumption.
Qed.

(** A call that the signature rejects is rejected by the wrapper. *)
Lemma static_inject_hyperparams_bind_error
  (inner_factory : Factory) (injectable_args : str_or_iterable)
  (args : list V) (kwargs : list (string * V)) (e : exn) :
  signature_bind (inspect_signature inner_factory) args kwargs = inl e ->
  static_inject_hyperparams inspect_signature inject_hyperparams
    inner_factory injectable_args args kwargs = inl e.
Proof.
  intros H. unfold static_inject_hyperparams, static_args_of.
  rewrite H. reflexivity.
Qed.

End InjectProperties.

(* ----------------------------------------------------------------- *)
(** ** Step counters at the end of the int32 range *)

Section CounterOverflow.
Local Open Scope R_scope.

(** C1. At the largest int32 value the counter of [scale_by_adam] does not
    saturate: one more update on the gradient [[1.0]] returns a state whose
    count is the smallest int32 value, -2147483648.  [bias_correction], on
    the same count, returns 2147483647. *)
Theorem scale_by_adam_count_wraps_at_int32_max :
  let T := scale_by_adam (Fin (9 / 10)) (Fin (999 / 1000)) (Fin (1 / 10 ^ 8))
             (Fin 0) true (Fin (1 / 2)) in
  let state := {| adam_count := 2147483647;
                  adam_mu := vec1 (Fin 0); adam_nu := vec1 (Fin 0) |} in
  (exists updates' state',
     update T (vec1 (Fin 1)) state None = inr (updates', state') /\
     adam_count state' = (-2147483648)%Z) /\
  fmap (fun r => bc_count (snd r))
    (update (bias_correction (Fin (9 / 10))) (vec1 (Fin 1))
       {| bc_count := 2147483647 |} None)
  = inr 2147483647%Z.
Proof.
  intros T state. split; [|reflexivity].
  eexists. eexists. split; [reflexivity|]. reflexivity.
Qed.

End CounterOverflow.

Section CounterFacts.
Context {F : Type} {FL : Float F}.
Local Abbreviation pytree := (@pytree F).



End CounterFacts.

(** Below the largest int32 value both increments add exactly 1; at the
    largest value the saturating increment stays and the int32 sum wraps. *)
Theorem increments_in_range (count : Z) :
  Int32.in_range count ->
  ((count < Int32.max_int)%Z ->
   Int32.add count 1 = (count + 1)%Z /\
   _safe_int32_increment count = (count + 1)%Z) /\
  (count = Int32.max_int ->
   Int32.add count 1 = Int32.min_int /\
   _safe_int32_increment count = Int32.max_int).
Proof.
  intros Hr. split.
  - intros Hlt. split;
      [now apply int32_add_one_below_max|now apply safe_increment_below_max].
  - intros ->. split; reflexivity.
Qed.

Lemma increments_in_range_witness :
  Int32.add 41 1 = 42%Z /\ _safe_int32_increment 41 = 42%Z.
Proof.
  apply (increments_in_range (count := 41)).
  - unfold Int32.in_range, Int32.min_int, Int32.max_int. lia.
  - unfold Int32.max_int. lia.
Defined.

(* ----------------------------------------------------------------- *)
(** ** The properties on concrete inputs *)

Section Instances.
Local Open Scope R_scope.



Lemma floor_of_whole_axis :
  f_to_int32 (ffloor (fmul (Fin 1) (f_of_Z (Z.of_nat 1)))) = 1%Z.
Proof.
  change (x_to_int32 (Fin (IZR (Zfloor (1 * IZR 1)))) = 1%Z).
  replace (1 * IZR 1) with (IZR 1) by lra.
  rewrite ZfloorZ. apply x_to_int32_of_Z.
  unfold Int32.in_range, Int32.min_int, Int32.max_int. lia.
Qed.

Lemma partition_multiples_whole_axis :
  partition_multiples [Fin 1] 1 = [1%Z].
Proof.
  unfold partition_multiples. cbn [map]. rewrite floor_of_whole_axis.
  reflexivity.
Qed.

Lemma generate_per_parameter_array_vec1 (x p : xreal) :
  _generate_per_parameter_array [Fin 1] "output" [x] (mk_array [1%nat] [p])
  = inr (mk_array [1%nat] [x]).
Proof.
  change (full_array <- jnp_repeat [x] (partition_multiples [Fin 1] 1) ;;
          reshape (mk_array [length full_array] full_array) [1%nat]
          = inr (mk_array [1%nat] [x])).
  rewrite partition_multiples_whole_axis. reflexivity.
Qed.

(** One parameter vector of length 1, one bucket: the arrays made by [init]
    are still in the state after two updates. *)
Lemma layered_adaptive_rms_arrays_computed_once_witness :
  let T := precondition_by_layered_adaptive_rms
             [Fin (9 / 10)] [Fin 2] [Fin 1] "output" (Fin (1 / 10 ^ 8)) (Fin 0) in
  exists state0 stateN,
    init T (vec1 (Fin 5)) = inr state0 /\
    run_updates T [(vec1 (Fin 1), None); (vec1 (Fin 3), None)] state0
      = inr stateN /\
    la_beta_array stateN = vec1 (Fin (9 / 10)) /\
    la_scale_array stateN = vec1 (Fin 2).
Proof.
  intros T.
  assert (Hinit : init T (vec1 (Fin 5))
                  = inr {| la_count := 0; la_nu := vec1 (Fin 0);
                           la_beta_array := vec1 (Fin (9 / 10));
                           la_scale_array := vec1 (Fin 2) |}).
  { unfold T, precondition_by_layered_adaptive_rms. cbn [init].
    unfold tree_mapM, vec1, leaf. cbn [leaves mapM tdef].
    rewrite !generate_per_parameter_array_vec1. reflexivity. }
  assert (Hrun : exists stateN,
             run_updates T [(vec1 (Fin 1), None); (vec1 (Fin 3), None)]
               {| la_count := 0; la_nu := vec1 (Fin 0);
                  la_beta_array := vec1 (Fin (9 / 10));
                  la_scale_array := vec1 (Fin 2) |} = inr stateN)
    by (eexists; reflexivity).
  destruct Hrun as [stateN Hrun].
  destruct (@layered_adaptive_rms_arrays_computed_once _ _ _ _ _ _ _ _ _ _ _ _
              Hinit Hrun) as (_ & _ & Hb & Hs).
  eexists. exists stateN.
  split; [exact Hinit|]. split; [exact Hrun|]. split; assumption.
Defined.




End Instances.

Section UtilsInstances.
Local Open Scope string_scope.

(** Adam's second moment inside a chain inside an injected state. *)
Lemma extract_field_spec_witness :
  extract_field
    (VNamedTuple
       [("count", VInt 3);
        ("hyperparams", VDict [("learning_rate", VInt 1)]);
        ("inner_state",
         VTuple [VNamedTuple [("count", VInt 3); ("mu", VInt 7); ("nu", VInt 9)];
                 VNamedTuple []])])
    "nu"
  = inr (VInt 9).
Proof.
  rewrite (proj1 (proj2 (extract_field_spec "nu"))) by reflexivity.
  cbn [elements filter map snd is_tuple first_match].
  rewrite (proj1 (proj2 (extract_field_spec "nu"))) by reflexivity.
  cbn [elements filter map snd is_tuple first_match].
  rewrite (proj1 (extract_field_spec "nu") _ (VInt 9)) by reflexivity.
  reflexivity.
Defined.

Lemma extract_field_requires_tuples_witness :
  extract_field (VList [example_B]) "y" = inl AssertionError /\
  extract_field (VTuple [VList [example_B]; VInt 1]) "y" = inr VNone.
Proof.
  split.
  - apply (proj1 (extract_field_requires_tuples "y")). reflexivity.
  - apply (proj1 (proj2 (extract_field_requires_tuples "y"))); reflexivity.
Defined.

(** A factory [f(learning_rate, momentum=9, nesterov=0)], the hyperparameters
    being integers or schedules named by a string. *)
Inductive hyper : Type :=
| HConst (z : Z)
| HSchedule (name : string).

Definition sgd_signature : signature hyper :=
  [ {| p_name := "learning_rate"; p_kind := POSITIONAL_OR_KEYWORD;
       p_default := None |};
    {| p_name := "momentum"; p_kind := POSITIONAL_OR_KEYWORD;
       p_default := Some (HConst 9) |};
    {| p_name := "nesterov"; p_kind := POSITIONAL_OR_KEYWORD;
       p_default := Some (HConst 0) |} ].

(** The call [wrapped(schedule, momentum=5)] with
    [injectable_args={'learning_rate'}]: [momentum], and [nesterov], which
    the caller did not pass, are static. *)
Lemma static_inject_hyperparams_static_args_witness :
  static_inject_hyperparams (fun _ : unit => sgd_signature)
    (fun _ static_args _ _ => ret static_args)
    tt (OneStr "learning_rate")
    [HSchedule "warmup"] [("momentum", HConst 5)]
  = inr ["momentum"; "nesterov"].
Proof.
  assert (Hbind : signature_bind sgd_signature [HSchedule "warmup"]
                    [("momentum", HConst 5)]
                  = inr [("learning_rate", BVal (HSchedule "warmup"));
                         ("momentum", BVal (HConst 5))]) by reflexivity.
  destruct (static_inject_hyperparams_static_args
              (fun _ : unit => sgd_signature)
              (fun _ static_args _ _ => ret static_args)
              tt (OneStr "learning_rate") _ _ Hbind)
    as (static_args & _ & Hs & Hw & _).
  rewrite Hw. vm_compute in Hs. inversion Hs. reflexivity.
Defined.

End UtilsInstances.

(* ================================================================= *)
(** * Further properties of transform.py *)

(* ----------------------------------------------------------------- *)
(** ** Element-wise views of trees *)

Section Elementwise.
Context {F : Type}.
Local Abbreviation array := (@array F).
Local Abbreviation pytree := (@pytree F).

(** Every element of every leaf satisfies [P]. *)
Definition tree_all (P : F -> Prop) (t : pytree) : Prop :=
  Forall (fun a => Forall P (data a)) (leaves t).

(** Corresponding elements of corresponding leaves are related by [R]. *)
Definition tree_all2 (R : F -> F -> Prop) (t1 t2 : pytree) : Prop :=
  Forall2 (fun a b => Forall2 R (data a) (data b)) (leaves t1) (leaves t2).

(** The leaf-by-leaf, element-by-element combination of two trees. *)
Definition tree_zip (f : F -> F -> F) (t1 t2 : pytree) : pytree :=
  mk_pytree (tdef t1) (zip_with (zip_arrays f) (leaves t1) (leaves t2)).

(** Same structure, same shapes and as many elements in every leaf. *)
Definition same_layout (t1 t2 : pytree) : Prop :=
  tdef t1 = tdef t2 /\
  Forall2 (fun a b => shape a = shape b /\ length (data a) = length (data b))
          (leaves t1) (leaves t2).

Lemma same_layout_congruent t1 t2 : same_layout t1 t2 -> congruent t1 t2.
Proof.
  intros [Hd Hl]. split; [exact Hd|].
  induction Hl as [|a b l1 l2 [Hs _] _ IH]; simpl; [reflexivity|].
  now rewrite Hs, IH.
Qed.




Lemma zip_with_length {A B C} (f : A -> B -> C) (l1 : list A) (l2 : list B) :
  length l1 = length l2 -> length (zip_with f l1 l2) = length l1.
Proof.
  revert l2. induction l1 as [|x l1 IH]; intros [|y l2] H; simpl in *;
    try discriminate; [reflexivity|]. f_equal. apply IH. lia.
Qed.

Lemma zip_with_ext_in {A B C} (f g : A -> B -> C) (l1 : list A) (l2 : list B) :
  (forall x y, In x l1 -> In y l2 -> f x y = g x y) ->
  zip_with f l1 l2 = zip_with g l1 l2.
Proof.
  revert l2. induction l1 as [|x l1 IH]; intros [|y l2] H; simpl;
    try reflexivity.
  rewrite H by (now left). f_equal. apply IH. intros; apply H; now right.
Qed.

Lemma zip_with_map {A B C D E} (f : C -> D -> E) (h1 : A -> C) (h2 : B -> D)
  (l1 : list A) (l2 : list B) :
  zip_with f (map h1 l1) (map h2 l2)
  = zip_with (fun x y => f (h1 x) (h2 y)) l1 l2.
Proof.
  revert l2. induction l1 as [|x l1 IH]; intros [|y l2]; simpl;
    try reflexivity. now rewrite IH.
Qed.

Lemma zip_with_same {A C} (f : A -> A -> C) (l : list A) :
  zip_with f l l = map (fun x => f x x) l.
Proof. induction l as [|x l IH]; simpl; [reflexivity|now rewrite IH]. Qed.


Lemma tree_zip_layout f t1 t2 :
  same_layout t1 t2 -> same_layout (tree_zip f t1 t2) t1.
Proof.
  intros [Hd Hl]. split; [reflexivity|]. unfold tree_zip. simpl.
  induction Hl as [|a b l1 l2 [Hs Hn] _ IH]; simpl; constructor; auto.
  split; [reflexivity|]. simpl. now apply zip_with_length.
Qed.

Lemma tree_map_layout (f : F -> F) t : same_layout (tree_map (amap f) t) t.
Proof.
  split; [reflexivity|]. unfold tree_map. simpl.
  induction (leaves t) as [|a l IH]; simpl; constructor; auto.
  split; [reflexivity|]. simpl. apply length_map.
Qed.

End Elementwise.

(* ----------------------------------------------------------------- *)
(** ** Sanitizing *)

Section Sanitize.
Context {F : Type} {FL : Float F}.
Local Abbreviation pytree := (@pytree F).

Lemma nan_to_num_idempotent (r x : F) :
  fisfinite r = true -> nan_to_num r (nan_to_num r x) = nan_to_num r x.
Proof.
  intros Hr. unfold nan_to_num.
  destruct (fisfinite x) eqn:Ex; [now rewrite Ex|now rewrite Hr].
Qed.

Lemma nan_to_num_is_finite (r x : F) :
  fisfinite r = true -> fisfinite (nan_to_num r x) = true.
Proof.
  intros Hr. unfold nan_to_num. destruct (fisfinite x) eqn:Ex; assumption.
Qed.

(** With a finite replacement, [sanitize_values] returns a tree of the same
    layout in which every element is finite: the finite elements of the
    input are kept, every other element is the replacement; the state is
    returned as given, and sanitizing the result again changes nothing. *)
Theorem sanitize_values_spec (replacement : F) (updates : pytree)
  (state : unit) (params : option pytree) :
  fisfinite replacement = true ->
  exists updates',
    update (sanitize_values replacement) updates state params
      = inr (updates', state) /\
    same_layout updates' updates /\
    tree_all (fun y => fisfinite y = true) updates' /\
    tree_all2 (fun x y => fisfinite x = true -> y = x) updates updates' /\
    tree_all2 (fun x y => fisfinite x = false -> y = replacement)
      updates updates' /\
    update (sanitize_values replacement) updates' state params
      = inr (updates', state).
Proof.
  intros Hr.
  exists (tree_map (fun x => _sanitize_values x replacement) updates).
  split; [reflexivity|].
  split; [apply (tree_map_layout (nan_to_num replacement))|].
  unfold tree_all, tree_all2, tree_map, _sanitize_values, amap. simpl.
  split; [|split; [|split]].
  - rewrite Forall_map. apply Forall_forall. intros a _. simpl.
    rewrite Forall_map. apply Forall_forall. intros x _.
    now apply nan_to_num_is_finite.
  - induction (leaves updates) as [|a l IH]; simpl; constructor; auto.
    simpl. induction (data a) as [|x d IHd]; simpl; constructor; auto.
    unfold nan_to_num. intros ->. reflexivity.
  - induction (leaves updates) as [|a l IH]; simpl; constructor; auto.
    simpl. induction (data a) as [|x d IHd]; simpl; constructor; auto.
    unfold nan_to_num. intros ->. reflexivity.
  - unfold ret, tree_map, _sanitize_values, amap. simpl.
    do 3 f_equal. rewrite map_map. apply map_ext. intros a. simpl.
    f_equal. rewrite map_map. apply map_ext. intros x.
    now apply nan_to_num_idempotent.
Qed.

End Sanitize.

(* ----------------------------------------------------------------- *)
(** ** Trees of finite numbers *)

Section FiniteTrees.
Local Open Scope R_scope.
Local Abbreviation rarray := (@array R).
Local Abbreviation rtree := (@pytree R).
Local Abbreviation xtree := (@pytree xreal).

(** A tree of real numbers seen as a tree of finite floating-point values. *)
Definition fin_array (a : rarray) : @array xreal :=
  mk_array (shape a) (map Fin (data a)).

Definition fin_tree (t : rtree) : xtree :=
  mk_pytree (tdef t) (map fin_array (leaves t)).

(** The tree with [h] applied to every element. *)
Definition rmap (h : R -> R) (t : rtree) : rtree := tree_map (amap h) t.

Lemma fin_tree_congruent (a b : rtree) :
  congruent a b -> congruent (fin_tree a) (fin_tree b).
Proof.
  intros [Hd Hs]. split; [exact Hd|]. simpl. rewrite !map_map. exact Hs.
Qed.

Lemma fin_tree_layout (a b : rtree) :
  same_layout a b -> same_layout (fin_tree a) (fin_tree b).
Proof.
  intros [Hd Hl]. split; [exact Hd|]. simpl.
  induction Hl as [|x y l1 l2 [Hs Hn] _ IH]; simpl; constructor; auto.
  split; [exact Hs|]. simpl. now rewrite !length_map.
Qed.

Lemma rmap_ext (h1 h2 : R -> R) (t : rtree) :
  (forall x, h1 x = h2 x) -> rmap h1 t = rmap h2 t.
Proof.
  intros H. unfold rmap, tree_map. f_equal. apply map_ext. intros a.
  unfold amap. f_equal. now apply map_ext.
Qed.





Lemma tree_map_fin_on (P : R -> Prop) (f : xreal -> xreal) (f' : R -> R)
  (t : rtree) :
  (forall x, P x -> f (Fin x) = Fin (f' x)) ->
  tree_all P t ->
  tree_map (amap f) (fin_tree t) = fin_tree (rmap f' t).
Proof.
  intros Hf Ht. unfold tree_map, fin_tree, rmap, tree_map. simpl. f_equal.
  rewrite !map_map. unfold tree_all in Ht.
  induction Ht as [|a l Ha _ IH]; simpl; [reflexivity|].
  rewrite IH. f_equal. unfold amap, fin_array. simpl. f_equal.
  rewrite !map_map.
  induction Ha as [|x d Hx _ IHd]; simpl; [reflexivity|].
  now rewrite Hf, IHd.
Qed.

Lemma tree_map_fin (f : xreal -> xreal) (f' : R -> R) (t : rtree) :
  (forall x, f (Fin x) = Fin (f' x)) ->
  tree_map (amap f) (fin_tree t) = fin_tree (rmap f' t).
Proof.
  intros Hf. apply tree_map_fin_on with (P := fun _ => True); [auto|].
  unfold tree_all. apply Forall_forall. intros a _.
  apply Forall_forall. auto.
Qed.

Lemma zip_fin_on (P Q : R -> Prop) (f : xreal -> xreal -> xreal)
  (f' : R -> R -> R) (d1 d2 : list R) :
  (forall x y, P x -> Q y -> f (Fin x) (Fin y) = Fin (f' x y)) ->
  Forall P d1 -> Forall Q d2 ->
  zip_with f (map Fin d1) (map Fin d2) = map Fin (zip_with f' d1 d2).
Proof.
  intros Hf H1. revert d2. induction H1 as [|x d1 Hx _ IH]; intros d2 H2.
  - reflexivity.
  - destruct H2 as [|y d2 Hy H2]; simpl; [reflexivity|].
    now rewrite Hf, IH.
Qed.

(** An element-wise operation that maps finite numbers, satisfying [P] and
    [Q], to finite numbers, on congruent trees of such numbers. *)
Lemma tree_map2_fin_on (P Q : R -> Prop) (f : xreal -> xreal -> xreal)
  (f' : R -> R -> R) (a b : rtree) :
  (forall x y, P x -> Q y -> f (Fin x) (Fin y) = Fin (f' x y)) ->
  congruent a b -> tree_all P a -> tree_all Q b ->
  tree_map2 (amap2 f) (fin_tree a) (fin_tree b)
  = inr (fin_tree (tree_zip f' a b)).
Proof.
  intros Hf Hc Ha Hb.
  rewrite (tree_map2_congruent f (fin_tree_congruent Hc)).
  unfold fin_tree, tree_zip. simpl. do 2 f_equal.
  unfold tree_all in *. revert Hb. generalize (leaves b).
  induction Ha as [|x l1 Hx _ IH]; intros l2 Hb; [reflexivity|].
  destruct Hb as [|y l2 Hy Hb]; simpl; [reflexivity|].
  rewrite IH by exact Hb. f_equal.
  unfold zip_arrays, fin_array. simpl. f_equal.
  now apply zip_fin_on with (P := P) (Q := Q).
Qed.

Lemma tree_all_True (t : rtree) : tree_all (fun _ => True) t.
Proof.
  unfold tree_all. apply Forall_forall. intros a _.
  apply Forall_forall. auto.
Qed.

Lemma tree_map2_fin (f : xreal -> xreal -> xreal) (f' : R -> R -> R)
  (a b : rtree) :
  (forall x y, f (Fin x) (Fin y) = Fin (f' x y)) ->
  congruent a b ->
  tree_map2 (amap2 f) (fin_tree a) (fin_tree b)
  = inr (fin_tree (tree_zip f' a b)).
Proof.
  intros Hf Hc.
  apply tree_map2_fin_on with (P := fun _ => True) (Q := fun _ => True);
    auto using tree_all_True.
Qed.



End FiniteTrees.

(* ----------------------------------------------------------------- *)
(** ** Moments of a constant gradient *)

Section ConstantGradient.
Local Open Scope R_scope.
Local Abbreviation rtree := (@pytree R).
Local Abbreviation xtree := (@pytree xreal).

Lemma moment_scalar (d x y : R) (order : Z) :
  (0 <= order)%Z ->
  fadd (fmul (fsub fone (Fin d)) (fpowi (Fin x) order)) (fmul (Fin d) (Fin y))
  = Fin ((1 - d) * powerRZ x order + d * y).
Proof.
  intros Ho.
  change (xadd (xmul (Fin (1 + - d)) (xpowi (Fin x) order)) (Fin (d * y))
          = Fin ((1 - d) * powerRZ x order + d * y)).
  unfold xpowi. destruct (Z.ltb_spec order 0); [lia|]. reflexivity.
Qed.

Lemma update_moment_fin (g m : rtree) (d : R) (order : Z) :
  (0 <= order)%Z -> congruent g m ->
  _update_moment (fin_tree g) (fin_tree m) (Fin d) order
  = inr (fin_tree (tree_zip (fun x y => (1 - d) * powerRZ x order + d * y) g m)).
Proof.
  intros Ho Hc. unfold _update_moment.
  apply tree_map2_fin; [|exact Hc]. intros x y. now apply moment_scalar.
Qed.

Lemma debias_scalar (d x : R) (count : Z) :
  (0 <= count)%Z -> 1 - powerRZ d count <> 0 ->
  fdiv (Fin x) (fsub fone (fpowi (Fin d) count))
  = Fin (x / (1 - powerRZ d count)).
Proof.
  intros Hc Hne.
  change (xdiv (Fin x) (xsub (Fin 1) (xpowi (Fin d) count))
          = Fin (x / (1 - powerRZ d count))).
  unfold xpowi. destruct (Z.ltb_spec count 0); [lia|].
  change (xsub (Fin 1) (Fin (powerRZ d count)))
    with (Fin (1 - powerRZ d count)).
  now apply xdiv_fin.
Qed.

Lemma bias_correction_fin (m : rtree) (d : R) (count : Z) :
  (0 <= count)%Z -> 1 - powerRZ d count <> 0 ->
  _bias_correction (fin_tree m) (Fin d) count
  = fin_tree (rmap (fun x => x / (1 - powerRZ d count)) m).
Proof.
  intros Hc Hne. unfold _bias_correction.
  apply tree_map_fin. intros x. now apply debias_scalar.
Qed.


(** The exponential moving average of the constant [c x], started at zero,
    after [n] steps. *)
Lemma ema_step (d c x : R) (n : nat) :
  (1 - d) * c + d * ((1 - d ^ n) * c) = (1 - d ^ S n) * c.
Proof. simpl. ring. Qed.









End ConstantGradient.

(* ----------------------------------------------------------------- *)
(** ** Bias-corrected decay *)

Section BiasCorrectedDecay.
Local Open Scope R_scope.
Local Abbreviation rtree := (@pytree R).







Lemma tree_zip_ext (f1 f2 : R -> R -> R) (a b : rtree) :
  (forall x y, f1 x y = f2 x y) -> tree_zip f1 a b = tree_zip f2 a b.
Proof.
  intros H. unfold tree_zip. f_equal.
  apply zip_with_ext_in. intros x y _ _. unfold zip_arrays. f_equal.
  apply zip_with_ext_in. intros; apply H.
Qed.

Lemma tree_zip_fst (a b : rtree) :
  same_layout a b -> tree_zip (fun x _ => x) a b = a.
Proof.
  intros [_ Hl]. unfold tree_zip. destruct a as [da la]. simpl in *. f_equal.
  induction Hl as [|x y l1 l2 [_ Hn] _ IH]; simpl; [reflexivity|].
  rewrite IH. f_equal. destruct x as [s dx]. unfold zip_arrays. simpl in *.
  f_equal. revert Hn. generalize (data y).
  induction dx as [|u d IHd]; intros [|v d2] Hn; simpl in *;
    try discriminate; [reflexivity|].
  f_equal. apply IHd. lia.
Qed.


End BiasCorrectedDecay.

(* ----------------------------------------------------------------- *)
(** ** Gradients of the shape of the parameters *)

Section ShapeSafety.
Context {F : Type} {FL : Float F}.
Local Abbreviation pytree := (@pytree F).

Lemma congruent_refl (t : pytree) : congruent t t.
Proof. split; reflexivity. Qed.

Lemma congruent_sym (a b : pytree) : congruent a b -> congruent b a.
Proof. intros [H1 H2]. split; now symmetry. Qed.

Lemma congruent_trans (a b c : pytree) :
  congruent a b -> congruent b c -> congruent a c.
Proof. intros [H1 H2] [H3 H4]. split; congruence. Qed.

Lemma tree_map_congruent (P : pytree) (f : F -> F) (a : pytree) :
  congruent P a -> congruent P (tree_map (amap f) a).
Proof.
  intros H. eapply congruent_trans; [exact H|].
  apply congruent_sym, same_layout_congruent, tree_map_layout.
Qed.

Lemma tree_map2_congruent_ok (P : pytree) (f : F -> F -> F) (a b : pytree) :
  congruent P a -> congruent P b ->
  exists c, tree_map2 (amap2 f) a b = inr c /\ congruent P c.
Proof.
  intros Ha Hb.
  assert (Hab : congruent a b)
    by (eapply congruent_trans; [apply congruent_sym; exact Ha|exact Hb]).
  rewrite (tree_map2_congruent f Hab). eexists. split; [reflexivity|].
  eapply congruent_trans; [exact Ha|]. destruct Hab as [Hd Hs].
  split; [reflexivity|]. simpl. symmetry. now apply zip_arrays_shapes.
Qed.

Lemma debias_congruent (P : pytree) (debias : bool) (a : pytree) decay count :
  congruent P a ->
  congruent P (if negb debias then a else _bias_correction a decay count).
Proof.
  intros H. destruct debias; simpl; [|exact H].
  now apply tree_map_congruent.
Qed.

(** A transform is shape safe, for the accumulator trees [acc] of its
    state, when [init] returns accumulators congruent to the parameters, and
    an update on a gradient congruent to the parameters, from a state with
    such accumulators, returns updates and accumulators congruent to the
    parameters. *)
Definition shape_safe {S : Type} (T : GradientTransformation S)
  (acc : S -> list pytree) : Prop :=
  forall params : pytree,
    (exists state0,
       init T params = inr state0 /\
       Forall (congruent params) (acc state0)) /\
    (forall state updates p,
       Forall (congruent params) (acc state) -> congruent params updates ->
       exists updates' state',
         update T updates state p = inr (updates', state') /\
         congruent params updates' /\
         Forall (congruent params) (acc state')).

(** Solves the goals of a shape-safety proof: every tree operation of the
    update is on trees congruent to the parameters. *)
Ltac shape_step params :=
  repeat match goal with
    | H : Forall _ (_ :: _) |- _ =>
        apply Forall_cons_iff in H; destruct H as [? H]
    | |- context [tree_map2 (amap2 ?f) ?a ?b] =>
        let c := fresh "c" in
        let E := fresh "E" in
        let Hc := fresh "Hc" in
        let Ha := fresh "Ha" in
        let Hb := fresh "Hb" in
        assert (Ha : congruent params a)
          by first [assumption | now apply debias_congruent
                   | now apply tree_map_congruent];
        assert (Hb : congruent params b)
          by first [assumption | now apply debias_congruent
                   | now apply tree_map_congruent];
        destruct (tree_map2_congruent_ok f Ha Hb) as (c & E & Hc);
        rewrite E; cbn [bind]; clear Ha Hb E
    end.

Lemma shape_safe_adam b1 b2 eps eps_root debias power :
  shape_safe (scale_by_adam b1 b2 eps eps_root debias power)
    (fun s => [adam_mu s; adam_nu s]).
Proof.
  intros params. split.
  - eexists. split; [reflexivity|]. simpl.
    repeat (apply Forall_cons; [apply tree_map_congruent, congruent_refl|]).
    apply Forall_nil.
  - intros state updates p Hacc Hu. simpl in Hacc.
    unfold scale_by_adam, _update_moment. cbn [update]. unfold bind. shape_step params.
    eexists. eexists. split; [reflexivity|]. split; [assumption|].
    simpl. repeat (apply Forall_cons; [assumption|]). apply Forall_nil.
Qed.

Lemma shape_safe_nadam b1 b2 eps eps_root debias power :
  shape_safe (scale_by_nadam b1 b2 eps eps_root debias power)
    (fun s => [adam_mu s; adam_nu s]).
Proof.
  intros params. split.
  - eexists. split; [reflexivity|]. simpl.
    repeat (apply Forall_cons; [apply tree_map_congruent, congruent_refl|]).
    apply Forall_nil.
  - intros state updates p Hacc Hu. simpl in Hacc.
    unfold scale_by_nadam, _update_moment. cbn [update]. unfold bind. shape_step params.
    eexists. eexists. split; [reflexivity|]. split; [assumption|].
    simpl. repeat (apply Forall_cons; [assumption|]). apply Forall_nil.
Qed.

Lemma shape_safe_amsgrad b1 b2 eps eps_root :
  shape_safe (scale_by_amsgrad b1 b2 eps eps_root)
    (fun s => [ams_mu s; ams_nu s]).
Proof.
  intros params. split.
  - eexists. split; [reflexivity|]. simpl.
    repeat (apply Forall_cons; [apply tree_map_congruent, congruent_refl|]).
    apply Forall_nil.
  - intros state updates p Hacc Hu. simpl in Hacc.
    unfold scale_by_amsgrad, _update_moment. cbn [update]. unfold bind. shape_step params.
    eexists. eexists. split; [reflexivity|]. split; [assumption|].
    simpl. repeat (apply Forall_cons; [assumption|]). apply Forall_nil.
Qed.

Lemma shape_safe_rms decay eps eps_root debias power :
  shape_safe (precondition_by_rms decay eps eps_root debias power)
    (fun s => [pc_nu s]).
Proof.
  intros params. split.
  - eexists. split; [reflexivity|]. simpl.
    repeat (apply Forall_cons; [apply tree_map_congruent, congruent_refl|]).
    apply Forall_nil.
  - intros state updates p Hacc Hu. simpl in Hacc.
    unfold precondition_by_rms, _update_moment. cbn [update]. unfold bind. shape_step params.
    eexists. eexists. split; [reflexivity|]. split; [assumption|].
    simpl. repeat (apply Forall_cons; [assumption|]). apply Forall_nil.
Qed.

Lemma shape_safe_yogi b2 eps eps_root iav debias :
  shape_safe (precondition_by_yogi b2 eps eps_root iav debias)
    (fun s => [pc_nu s]).
Proof.
  intros params. split.
  - eexists. split; [reflexivity|]. simpl.
    apply Forall_cons; [|apply Forall_nil].
    apply (tree_map_congruent (fun _ => iav)), congruent_refl.
  - intros state updates p Hacc Hu. simpl in Hacc.
    unfold precondition_by_yogi. cbn [update]. unfold bind. shape_step params.
    eexists. eexists. split; [reflexivity|]. split; [assumption|].
    simpl. repeat (apply Forall_cons; [assumption|]). apply Forall_nil.
Qed.

Lemma shape_safe_precondition_by_amsgrad b2 eps eps_root :
  shape_safe (precondition_by_amsgrad b2 eps eps_root) (fun s => [pc_nu s]).
Proof.
  intros params. split.
  - eexists. split; [reflexivity|]. simpl.
    repeat (apply Forall_cons; [apply tree_map_congruent, congruent_refl|]).
    apply Forall_nil.
  - intros state updates p Hacc Hu. simpl in Hacc.
    unfold precondition_by_amsgrad, _update_moment. cbn [update]. unfold bind. shape_step params.
    eexists. eexists. split; [reflexivity|]. split; [assumption|].
    simpl. repeat (apply Forall_cons; [assumption|]). apply Forall_nil.
Qed.

Lemma shape_safe_rss iav eps power :
  shape_safe (precondition_by_rss iav eps power)
    (fun s => [sum_of_squares s]).
Proof.
  intros params. split.
  - eexists. split; [reflexivity|]. simpl.
    apply Forall_cons; [|apply Forall_nil].
    apply (tree_map_congruent (fun _ => iav)), congruent_refl.
  - intros state updates p Hacc Hu. simpl in Hacc.
    unfold precondition_by_rss. cbn [update]. unfold bind. shape_step params.
    eexists. eexists. split; [reflexivity|]. split; [assumption|].
    simpl. repeat (apply Forall_cons; [assumption|]). apply Forall_nil.
Qed.

Lemma shape_safe_nesterovpp moment_decay update_decay :
  shape_safe (nesterovpp moment_decay update_decay) (fun s => [trace s]).
Proof.
  intros params. split.
  - eexists. split; [reflexivity|]. simpl.
    repeat (apply Forall_cons; [apply tree_map_congruent, congruent_refl|]).
    apply Forall_nil.
  - intros state updates p Hacc Hu. simpl in Hacc.
    unfold nesterovpp. cbn [update]. unfold bind. shape_step params.
    eexists. eexists. split; [reflexivity|]. split; [assumption|].
    simpl. repeat (apply Forall_cons; [assumption|]). apply Forall_nil.
Qed.

(** A transform runs safely when, started by [init] on the parameters, any
    sequence of updates whose gradients are congruent to the parameters
    returns without an exception, the accumulators [acc] of the state stay
    congruent to the parameters, and so is every tree of updates that is
    returned. *)
Definition runs_safely {S : Type} (T : GradientTransformation S)
  (acc : S -> list pytree) : Prop :=
  forall (params : pytree) (steps : list (pytree * option pytree)),
    Forall (fun step => congruent params (fst step)) steps ->
    exists state0 state_n,
      init T params = inr state0 /\
      run_updates T steps state0 = inr state_n /\
      Forall (congruent params) (acc state_n) /\
      (forall updates p,
         congruent params updates ->
         exists updates' state',
           update T updates state_n p = inr (updates', state') /\
           congruent params updates').

Lemma shape_safe_runs {S : Type} (T : GradientTransformation S)
  (acc : S -> list pytree) :
  shape_safe T acc -> runs_safely T acc.
Proof.
  intros Hsafe params steps Hsteps.
  destruct (Hsafe params) as [(state0 & Hinit & Hacc0) Hstep].
  exists state0.
  assert (Hrun : forall s, Forall (congruent params) (acc s) ->
            exists sn, run_updates T steps s = inr sn /\
                       Forall (congruent params) (acc sn)).
  { induction Hsteps as [|[u p] rest Hu _ IH]; intros s Hs.
    - exists s. split; [reflexivity|exact Hs].
    - destruct (Hstep s u p Hs Hu) as (u' & s' & E & _ & Hs').
      cbn [run_updates]. rewrite E. cbn [bind snd]. now apply IH. }
  destruct (Hrun state0 Hacc0) as (sn & Hr & Hn).
  exists sn. repeat split; try assumption.
  intros updates p Hu.
  destruct (Hstep sn updates p Hn Hu) as (u' & s' & E & Hc & _).
  exists u', s'. split; assumption.
Qed.

(** The transforms that keep moments of the gradients run safely: started
    on the parameters and fed gradients congruent to them, [scale_by_adam],
    [scale_by_nadam], [scale_by_amsgrad], [precondition_by_rms],
    [precondition_by_yogi], [precondition_by_amsgrad], [precondition_by_rss]
    and [nesterovpp] never raise, for any hyperparameters and any number of
    updates; their accumulators and the updates they return are congruent to
    the parameters. *)
Theorem moment_transforms_run_safely
  (b1 b2 decay eps eps_root iav power moment_decay update_decay : F)
  (debias : bool) :
  runs_safely (scale_by_adam b1 b2 eps eps_root debias power)
    (fun s => [adam_mu s; adam_nu s]) /\
  runs_safely (scale_by_nadam b1 b2 eps eps_root debias power)
    (fun s => [adam_mu s; adam_nu s]) /\
  runs_safely (scale_by_amsgrad b1 b2 eps eps_root)
    (fun s => [ams_mu s; ams_nu s]) /\
  runs_safely (precondition_by_rms decay eps eps_root debias power)
    (fun s => [pc_nu s]) /\
  runs_safely (precondition_by_yogi b2 eps eps_root iav debias)
    (fun s => [pc_nu s]) /\
  runs_safely (precondition_by_amsgrad b2 eps eps_root)
    (fun s => [pc_nu s]) /\
  runs_safely (precondition_by_rss iav eps power)
    (fun s => [sum_of_squares s]) /\
  runs_safely (nesterovpp moment_decay update_decay) (fun s => [trace s]).
Proof.
  repeat split; apply shape_safe_runs.
  - apply shape_safe_adam.
  - apply shape_safe_nadam.
  - apply shape_safe_amsgrad.
  - apply shape_safe_rms.
  - apply shape_safe_yogi.
  - apply shape_safe_precondition_by_amsgrad.
  - apply shape_safe_rss.
  - apply shape_safe_nesterovpp.
Qed.

End ShapeSafety.

(* ----------------------------------------------------------------- *)
(** ** Momentum with decoupled decays *)

Section Nesterovpp.
Context {F : Type} {FL : Float F}.
Local Abbreviation pytree := (@pytree F).

(** An element-wise operation that succeeded on [u] and [t] succeeds on [u]
    and its own result. *)
Lemma tree_map2_again (f g : F -> F -> F) (u t c : pytree) :
  tree_map2 (amap2 f) u t = inr c ->
  exists c', tree_map2 (amap2 g) u c = inr c' /\ sig_of c' = sig_of c.
Proof.
  intros H.
  pose proof (tree_map2_sig f u t) as S1. rewrite H in S1. simpl in S1.
  symmetry in S1. apply sig_map2_absorb in S1.
  pose proof (tree_map2_sig g u c) as S2. rewrite S1 in S2.
  destruct (tree_map2 (amap2 g) u c) as [e|c']; simpl in S2; [discriminate|].
  exists c'. split; [reflexivity|congruence].
Qed.

(** The two decays of [nesterovpp] are decoupled: the new trace is
    [g + moment_decay * trace] and does not depend on [update_decay]; the
    update raises exactly when the computation of the new trace does (the
    second step, [g + update_decay * new_trace], never fails after it); two
    instances that differ in [update_decay] only return the same state. *)
Theorem nesterovpp_decays_decoupled
  (moment_decay update_decay update_decay' : F)
  (updates : pytree) (state : TraceState) (params : option pytree) :
  fmap (fun r => trace (snd r))
    (update (nesterovpp moment_decay update_decay) updates state params)
  = tree_map2 (amap2 (fun g t => fadd g (fmul moment_decay t)))
      updates (trace state)
  /\
  fmap snd (update (nesterovpp moment_decay update_decay) updates state params)
  = fmap snd
      (update (nesterovpp moment_decay update_decay') updates state params).
Proof.
  unfold nesterovpp. cbn [update].
  destruct (tree_map2 (amap2 (fun g t => fadd g (fmul moment_decay t)))
              updates (trace state)) as [e|new_trace] eqn:E; cbn [bind fmap];
    [split; reflexivity|].
  destruct (@tree_map2_again _ (fun g t => fadd g (fmul update_decay t)) _ _ _ E)
    as (c1 & E1 & _).
  destruct (@tree_map2_again _ (fun g t => fadd g (fmul update_decay' t)) _ _ _ E)
    as (c2 & E2 & _).
  rewrite E1, E2. split; reflexivity.
Qed.

End Nesterovpp.

(* ----------------------------------------------------------------- *)
(** ** AMSGrad and Adam *)

Section AMSGrad.
Local Open Scope R_scope.
Local Abbreviation xtree := (@pytree xreal).

Lemma xmaximum_of_le (old new : xreal) :
  xleb old new = true -> xmaximum new old = new.
Proof.
  destruct old as [a| | |], new as [b| | |]; simpl; intros H;
    try discriminate; try reflexivity.
  destruct (Rle_dec a b); [|discriminate].
  f_equal. now apply Rmax_left.
Qed.

Lemma zip_maximum_of_le (d_old d_new : list xreal) :
  Forall2 (fun old new => xleb old new = true) d_old d_new ->
  zip_with xmaximum d_new d_old = d_new.
Proof.
  induction 1 as [|o n l1 l2 H _ IH]; simpl; [reflexivity|].
  now rewrite xmaximum_of_le, IH.
Qed.

Lemma tree_maximum_of_le (old new : xtree) :
  congruent new old ->
  tree_all2 (fun o n => xleb o n = true) old new ->
  tree_map2 (amap2 fmaximum) new old = inr new.
Proof.
  intros Hc Hle. rewrite (tree_map2_congruent fmaximum Hc). clear Hc.
  destruct new as [d ln]. unfold tree_all2 in Hle. simpl in *. do 2 f_equal.
  induction Hle as [|a b l1 l2 Hab _ IH]; simpl; [reflexivity|].
  rewrite IH. f_equal. destruct b as [s db]. unfold zip_arrays. simpl in *.
  f_equal. now apply zip_maximum_of_le.
Qed.

(** As long as the second moment does not decrease (no element of the new
    [nu] is below the corresponding element of the previous one),
    [scale_by_amsgrad] returns the updates of [scale_by_adam] without
    debiasing and with power 0.5 on the same moments, and the same new
    moments: the maximum with the previous [nu] only matters when [nu]
    decreases.  The gradient is congruent to the moments. *)
Theorem scale_by_amsgrad_is_adam_while_nu_grows
  (b1 b2 eps eps_root : xreal) (updates : xtree)
  (state : @ScaleByAMSGradState xreal) (count : Z) (params : option xtree)
  (nu' : xtree) :
  congruent updates (ams_nu state) ->
  _update_moment updates (ams_nu state) b2 2 = inr nu' ->
  tree_all2 (fun old new => xleb old new = true) (ams_nu state) nu' ->
  fmap (fun r => (fst r, ams_mu (snd r), ams_nu (snd r)))
    (update (scale_by_amsgrad b1 b2 eps eps_root) updates state params)
  = fmap (fun r => (fst r, adam_mu (snd r), adam_nu (snd r)))
      (update (scale_by_adam b1 b2 eps eps_root false (Fin (1 / 2)))
         updates
         {| adam_count := count; adam_mu := ams_mu state;
            adam_nu := ams_nu state |}
         params).
Proof.
  intros Hc Hnu Hle.
  unfold scale_by_amsgrad, scale_by_adam. cbn [update adam_mu adam_nu negb].
  destruct (_update_moment updates (ams_mu state) b1 1) as [e|mu];
    cbn [bind fmap]; [reflexivity|].
  rewrite Hnu. cbn [bind].
  assert (Hc' : congruent nu' (ams_nu state)).
  { unfold _update_moment in Hnu.
    rewrite (tree_map2_congruent _ Hc) in Hnu. inversion Hnu; subst.
    destruct Hc as [Hd Hs]. split; simpl; [exact Hd|].
    rewrite zip_arrays_shapes by exact Hs. exact Hs. }
  rewrite (tree_maximum_of_le Hc' Hle). cbn [bind].
  rewrite raise_power_of_half.
  destruct (tree_map2 _ mu nu'); reflexivity.
Qed.

End AMSGrad.

(* ----------------------------------------------------------------- *)
(** ** Yogi keeps its second moment positive *)

Section Yogi.
Local Open Scope R_scope.
Local Abbreviation rtree := (@pytree R).
Local Abbreviation xtree := (@pytree xreal).












End Yogi.

(* ----------------------------------------------------------------- *)
(** ** The sum of squares of [precondition_by_rss] *)

Section Rss.
Local Open Scope R_scope.
Local Abbreviation rtree := (@pytree R).
Local Abbreviation xtree := (@pytree xreal).











End Rss.

(* ----------------------------------------------------------------- *)
(** ** The per-parameter arrays of the layered preconditioner *)

Section LayeredShapes.
Context {F : Type} {FL : Float F}.
Local Abbreviation array := (@array F).
Local Abbreviation pytree := (@pytree F).

(** Shape [s1] broadcasts to [s2] without changing it: the shapes have the
    same number of axes, and every axis of [s1] has length 1 or the length
    of the axis of [s2]. *)
Definition broadcasts_to (s1 s2 : list nat) : Prop :=
  Forall2 (fun d e => d = 1%nat \/ d = e) s1 s2.

Lemma bshape_broadcasts_to (s1 s2 : list nat) :
  broadcasts_to s1 s2 -> bshape s1 s2 = Some s2.
Proof.
  intros H. induction H as [|d e s1 s2 Hd _ IH]; [reflexivity|].
  cbn [bshape]. rewrite IH.
  destruct (Nat.eqb_spec d e) as [->|Hne]; [reflexivity|].
  destruct Hd as [-> | ->]; [reflexivity|contradiction].
Qed.

Lemma broadcasts_to_rev (s1 s2 : list nat) :
  broadcasts_to s1 s2 -> broadcasts_to (rev s1) (rev s2).
Proof.
  intros H. induction H as [|d e s1 s2 Hd _ IH]; [constructor|].
  simpl. apply Forall2_app; [exact IH|]. constructor; [exact Hd|constructor].
Qed.

Lemma broadcast_shapes_broadcasts_to (s1 s2 : list nat) :
  broadcasts_to s1 s2 -> broadcast_shapes s1 s2 = Some s2.
Proof.
  intros H. unfold broadcast_shapes.
  rewrite (bshape_broadcasts_to (broadcasts_to_rev H)). simpl.
  now rewrite rev_involutive.
Qed.

Lemma broadcasts_to_refl (s : list nat) : broadcasts_to s s.
Proof. induction s; constructor; auto. Qed.

Lemma broadcasts_to_ones (s : list nat) :
  broadcasts_to (repeat 1%nat (length s)) s.
Proof. induction s; simpl; constructor; auto. Qed.

(** All ones, except the length of axis [t] of [s] at axis [t]. *)
Lemma broadcasts_to_one_axis (s : list nat) (t L : nat) :
  nth_error s t = Some L ->
  broadcasts_to
    (firstn t (repeat 1%nat (length s)) ++
     L :: skipn (S t) (repeat 1%nat (length s))) s.
Proof.
  revert t. induction s as [|d s IH]; intros [|t] H; simpl in H;
    try discriminate.
  - inversion H; subst. simpl. constructor; [now right|].
    apply broadcasts_to_ones.
  - simpl. constructor; [now left|]. now apply IH.
Qed.

Lemma py_index_nonneg {A} (l : list A) (i : Z) (x : A) :
  (0 <= i)%Z -> py_index l i = inr x -> nth_error l (Z.to_nat i) = Some x.
Proof.
  intros Hi H. unfold py_index in H.
  destruct (Z.ltb_spec i 0); [lia|].
  destruct (Z.ltb_spec i 0); [lia|].
  destruct (nth_error l (Z.to_nat i)); [|discriminate].
  unfold ret in H. congruence.
Qed.

(** An array returned by [_generate_per_parameter_array] has the number of
    axes of the parameter, all of length 1 except one, which has the length
    of that axis of the parameter. *)
Lemma per_parameter_array_shape (dd : list F) (modality : string)
  (arr : list F) (p out : array) :
  _generate_per_parameter_array dd modality arr p = inr out ->
  broadcasts_to (shape out) (shape p).
Proof.
  unfold _generate_per_parameter_array, ndim. intros H.
  destruct (shape p) as [|d s] eqn:Es.
  { destruct (String.eqb modality "output"); discriminate H. }
  rewrite <- Es in *.
  assert (Hn : (1 <= Z.of_nat (length (shape p)))%Z)
    by (rewrite Es; simpl length; lia).
  destruct (String.eqb modality "output").
  - destruct (py_index (shape p) (Z.of_nat (length (shape p)) - 1))
      as [e|L] eqn:E; [discriminate|].
    cbn [bind] in H.
    destruct (_generate_partition arr dd L) as [e|v]; [discriminate|].
    cbn [bind] in H. unfold reshape in H.
    destruct (Nat.eqb _ _); [|discriminate].
    injection H as Hout. rewrite <- Hout. cbn [shape].
    apply broadcasts_to_one_axis. apply py_index_nonneg; [lia|exact E].
  - destruct (py_index (shape p) (Z.max (Z.of_nat (length (shape p)) - 2) 0))
      as [e|L] eqn:E; [discriminate|].
    cbn [bind] in H.
    destruct (_generate_partition arr dd L) as [e|v]; [discriminate|].
    cbn [bind] in H. unfold reshape in H.
    destruct (Nat.eqb _ _); [|discriminate].
    injection H as Hout. rewrite <- Hout. cbn [shape].
    apply broadcasts_to_one_axis. apply py_index_nonneg; [lia|exact E].
Qed.

(** A parameter without axes has no axis to read the length of. *)
Lemma per_parameter_array_scalar (dd : list F) (modality : string)
  (arr : list F) (p : array) :
  shape p = [] ->
  _generate_per_parameter_array dd modality arr p = inl IndexError.
Proof.
  intros H. unfold _generate_per_parameter_array, ndim. rewrite H.
  destruct (String.eqb modality "output"); reflexivity.
Qed.

Lemma amap2_broadcast_l (f : F -> F -> F) (a b : array) :
  broadcasts_to (shape a) (shape b) ->
  exists c, amap2 f a b = inr c /\ shape c = shape b.
Proof.
  intros H. unfold amap2, shape_eqb.
  destruct (list_eq_dec Nat.eq_dec (shape a) (shape b)) as [E|_].
  - eexists. split; [reflexivity|exact E].
  - rewrite (broadcast_shapes_broadcasts_to H).
    eexists. split; reflexivity.
Qed.

Lemma amap2_same_shape (f : F -> F -> F) (a b : array) :
  shape a = shape b -> exists c, amap2 f a b = inr c /\ shape c = shape a.
Proof.
  intros H. unfold amap2, shape_eqb.
  destruct (list_eq_dec Nat.eq_dec (shape a) (shape b)) as [_|N];
    [|contradiction].
  eexists. split; reflexivity.
Qed.

(** The moment of one leaf, with the decays of the leaf. *)
Lemma update_moment_general_shape (g t b : array) (order : Z) :
  shape t = shape g -> broadcasts_to (shape b) (shape g) ->
  exists c, _update_moment_general g t b order = inr c /\ shape c = shape g.
Proof.
  intros Ht Hb. unfold _update_moment_general.
  destruct (@amap2_broadcast_l fmul
              (amap (fun x => if fleb x fzero then fone else x)
                 (amap (fun b0 => fsub fone b0) b))
              (amap (fun g0 => fpowi g0 order) g) Hb) as (lhs & Elhs & Hl). rewrite Elhs.
  cbn [bind].
  destruct (@amap2_broadcast_l fmul b t ltac:(rewrite Ht; exact Hb))
    as (rhs & Erhs & Hr). rewrite Erhs.
  cbn [bind].
  destruct (@amap2_same_shape fadd lhs rhs ltac:(simpl in *; congruence))
    as (c & Ec & Hc). rewrite Ec.
  exists c. split; [reflexivity|]. simpl in *. congruence.
Qed.

(** The scaled update of one leaf. *)
Lemma layered_leaf_update_shape (eps eps_root : F) (m v s : array) :
  shape v = shape m -> broadcasts_to (shape s) (shape m) ->
  exists c,
    (q <- amap2 (fun m v => fdiv m (fadd (fsqrt (fadd v eps_root)) eps)) m v ;;
     amap2 fmul s q) = inr c /\ shape c = shape m.
Proof.
  intros Hv Hs.
  destruct (@amap2_same_shape
              (fun m v => fdiv m (fadd (fsqrt (fadd v eps_root)) eps)) m v
              (eq_sym Hv)) as (q & Eq & Hq). rewrite Eq.
  cbn [bind].
  destruct (@amap2_broadcast_l fmul s q ltac:(rewrite Hq; exact Hs))
    as (c & Ec & Hc). rewrite Ec.
  exists c. split; [reflexivity|congruence].
Qed.

Lemma mapM3_shapes (f : array -> array -> array -> res array)
  (l1 l2 l3 : list array) :
  (forall a b c, shape b = shape a -> broadcasts_to (shape c) (shape a) ->
     exists d, f a b c = inr d /\ shape d = shape a) ->
  map shape l2 = map shape l1 ->
  Forall2 (fun c a => broadcasts_to (shape c) (shape a)) l3 l1 ->
  exists l, mapM3 f l1 l2 l3 = inr l /\ map shape l = map shape l1.
Proof.
  intros Hf H2 H3. revert l2 H2.
  induction H3 as [|c a l3 l1 Hca _ IH]; intros [|b l2] H2; simpl in H2;
    try discriminate.
  - exists []. split; reflexivity.
  - inversion H2 as [[Hb Hrest]].
    destruct (Hf a b c Hb Hca) as (d & Ed & Hd).
    destruct (IH l2 Hrest) as (l & El & Hl).
    exists (d :: l). cbn [mapM3]. rewrite Ed. cbn [bind]. rewrite El.
    split; [reflexivity|]. simpl. now rewrite Hd, Hl.
Qed.

Lemma mapM_per_parameter_shapes (dd : list F) (modality : string)
  (arr : list F) (l out : list array) :
  mapM (_generate_per_parameter_array dd modality arr) l = inr out ->
  Forall2 (fun c a => broadcasts_to (shape c) (shape a)) out l.
Proof.
  revert out. induction l as [|a l IH]; intros out H; simpl in H.
  - unfold ret in H. inversion H. constructor.
  - destruct (_generate_per_parameter_array dd modality arr a) as [e|c] eqn:E;
      [discriminate|]. cbn [bind] in H.
    destruct (mapM _ l) as [e|cs]; [discriminate|]. cbn [bind] in H.
    unfold ret in H. inversion H; subst.
    constructor; [now apply per_parameter_array_shape in E|now apply IH].
Qed.

(** A tree of arrays that broadcast to the leaves of the parameters. *)
Definition tree_broadcasts_to (t params : pytree) : Prop :=
  tdef t = tdef params /\
  Forall2 (fun c a => broadcasts_to (shape c) (shape a))
    (leaves t) (leaves params).

Lemma layered_init_shapes decays scales dd modality eps eps_root
  (params : pytree) state0 :
  init (precondition_by_layered_adaptive_rms decays scales dd modality
          eps eps_root) params = inr state0 ->
  la_count state0 = 0%Z /\
  congruent params (la_nu state0) /\
  tree_broadcasts_to (la_beta_array state0) params /\
  tree_broadcasts_to (la_scale_array state0) params.
Proof.
  unfold precondition_by_layered_adaptive_rms. cbn [init]. unfold tree_mapM.
  intros H.
  destruct (mapM (_generate_per_parameter_array dd modality decays)
              (leaves params)) as [e|bs] eqn:Eb; [discriminate|].
  cbn [bind] in H.
  destruct (mapM (_generate_per_parameter_array dd modality scales)
              (leaves params)) as [e|ss] eqn:Es; [discriminate|].
  cbn [bind] in H. unfold ret in H. inversion H; subst. cbn.
  split; [reflexivity|]. split; [|split].
  - apply congruent_sym, same_layout_congruent.
    apply (tree_map_layout (fun _ => fzero) params).
  - split; [reflexivity|]. now apply mapM_per_parameter_shapes in Eb.
  - split; [reflexivity|]. now apply mapM_per_parameter_shapes in Es.
Qed.

Lemma tree_map3_shapes (f : array -> array -> array -> res array)
  (params t1 t2 t3 : pytree) :
  (forall a b c, shape b = shape a -> broadcasts_to (shape c) (shape a) ->
     exists d, f a b c = inr d /\ shape d = shape a) ->
  congruent params t1 -> congruent params t2 -> tree_broadcasts_to t3 params ->
  exists c, tree_map3 f t1 t2 t3 = inr c /\ congruent params c.
Proof.
  intros Hf [Hd1 Hs1] [Hd2 Hs2] [Hd3 Hs3]. unfold tree_map3.
  rewrite <- Hd1, <- Hd2, Hd3, !treedef_eqb_refl. cbn [andb].
  assert (H3 : Forall2 (fun c a => broadcasts_to (shape c) (shape a))
                 (leaves t3) (leaves t1)).
  { clear -Hs1 Hs3. revert Hs1. generalize (leaves t1).
    induction Hs3 as [|c a l3 lp Hca _ IH]; intros [|b l1] H; simpl in H;
      try discriminate; [constructor|].
    inversion H as [[Hb Hrest]]. constructor; [|now apply IH].
    now rewrite <- Hb. }
  destruct (@mapM3_shapes f (leaves t1) (leaves t2) (leaves t3) Hf
              ltac:(congruence) H3) as (l & El & Hl).
  rewrite El. cbn [bind]. eexists. split; [reflexivity|].
  split; [reflexivity|]. simpl. congruence.
Qed.

Lemma layered_update_shapes decays scales dd modality eps eps_root
  (params updates : pytree) state (p : option pytree) :
  congruent params (la_nu state) ->
  tree_broadcasts_to (la_beta_array state) params ->
  tree_broadcasts_to (la_scale_array state) params ->
  congruent params updates ->
  exists updates' nu',
    update (precondition_by_layered_adaptive_rms decays scales dd modality
              eps eps_root) updates state p
    = inr (updates',
           {| la_count := Int32.add (la_count state) 1; la_nu := nu';
              la_beta_array := la_beta_array state;
              la_scale_array := la_scale_array state |}) /\
    congruent params updates' /\ congruent params nu'.
Proof.
  intros Hnu Hb Hs Hu.
  unfold precondition_by_layered_adaptive_rms. cbn [update].
  destruct (@tree_map3_shapes (fun g t b => _update_moment_general g t b 2)
              params updates (la_nu state) (la_beta_array state)
              (fun a b c => @update_moment_general_shape a b c 2) Hu Hnu Hb)
    as (nu' & Enu & Hnu').
  rewrite Enu. cbn [bind].
  destruct (@tree_map3_shapes
              (fun m v s =>
                 q <- amap2 (fun m v =>
                        fdiv m (fadd (fsqrt (fadd v eps_root)) eps)) m v ;;
                 amap2 fmul s q)
              params updates nu' (la_scale_array state)
              (fun a b c => @layered_leaf_update_shape eps eps_root a b c)
              Hu Hnu' Hs)
    as (u' & Eu & Hu').
  rewrite Eu. cbn [bind]. exists u', nu'. split; [reflexivity|].
  split; assumption.
Qed.

(** Once [init] of [precondition_by_layered_adaptive_rms] has returned, no
    update on gradients congruent to the parameters raises: the arrays of
    decays and scales broadcast to the leaves, whatever the lists of decays
    and scales, the distribution and the modality; [nu] and the returned
    updates are congruent to the parameters, and the count is the int32
    count of the updates. *)
Theorem layered_adaptive_rms_updates_never_raise
  decays scales dd modality eps eps_root
  (params : pytree) (steps : list (pytree * option pytree)) state0 :
  let T := precondition_by_layered_adaptive_rms decays scales dd modality
             eps eps_root in
  init T params = inr state0 ->
  Forall (fun step => congruent params (fst step)) steps ->
  exists state_n,
    run_updates T steps state0 = inr state_n /\
    la_count state_n
    = fold_left (fun c _ => Int32.add c 1) steps 0%Z /\
    congruent params (la_nu state_n) /\
    forall updates p,
      congruent params updates ->
      exists updates' state',
        update T updates state_n p = inr (updates', state') /\
        congruent params updates'.
Proof.
  intros T Hinit Hsteps.
  destruct (layered_init_shapes _ _ _ _ _ _ _ Hinit) as (Hc0 & Hnu0 & Hb0 & Hs0).
  rewrite <- Hc0. clear Hinit Hc0.
  revert state0 Hnu0 Hb0 Hs0.
  induction Hsteps as [|[u p] rest Hu _ IH]; intros s Hnu Hb Hs.
  - exists s. split; [reflexivity|]. split; [reflexivity|].
    split; [exact Hnu|]. intros updates p Hup.
    destruct (@layered_update_shapes decays scales dd modality eps eps_root
                params updates s p Hnu Hb Hs Hup) as (u' & nu' & E & Hu' & _).
    eexists _, _. split; [exact E|exact Hu'].
  - destruct (@layered_update_shapes decays scales dd modality eps eps_root
                params u s p Hnu Hb Hs Hu) as (u' & nu' & E & _ & Hnu').
    destruct (IH {| la_count := Int32.add (la_count s) 1; la_nu := nu';
                    la_beta_array := la_beta_array s;
                    la_scale_array := la_scale_array s |} Hnu' Hb Hs)
      as (sn & Hr & Hc & Hn & Hnext).
    exists sn. cbn [run_updates fold_left]. unfold T. rewrite E.
    cbn [bind snd]. split; [exact Hr|]. split; [exact Hc|].
    split; [exact Hn|exact Hnext].
Qed.

(** A parameter tree with a scalar leaf cannot be used with
    [precondition_by_layered_adaptive_rms]: [_generate_per_parameter_array]
    raises IndexError on an array without axes, for either modality, and so
    [init] raises. *)
Theorem layered_adaptive_rms_rejects_scalars
  decays scales dd modality eps eps_root (params : pytree) (a : array) :
  shape a = [] ->
  _generate_per_parameter_array dd modality decays a = inl IndexError /\
  (In a (leaves params) ->
   exists e,
     init (precondition_by_layered_adaptive_rms decays scales dd modality
             eps eps_root) params = inl e).
Proof.
  intros Ha. split; [now apply per_parameter_array_scalar|].
  intros Hin. unfold precondition_by_layered_adaptive_rms. cbn [init].
  unfold tree_mapM.
  assert (H : exists e,
            mapM (_generate_per_parameter_array dd modality decays)
              (leaves params) = inl e).
  { induction (leaves params) as [|b l IH]; [contradiction|].
    cbn [mapM].
    destruct (_generate_per_parameter_array dd modality decays b) as [e|c]
      eqn:E; [exists e; reflexivity|]. cbn [bind].
    destruct Hin as [->|Hin].
    - rewrite per_parameter_array_scalar in E by exact Ha. discriminate.
    - destruct (IH Hin) as [e ->]. exists e. reflexivity. }
  destruct H as [e ->]. exists e. reflexivity.
Qed.

End LayeredShapes.

(* ----------------------------------------------------------------- *)
(** ** When [init] of the layered preconditioner returns *)

Section LayeredInit.
Local Open Scope R_scope.
Local Abbreviation xarray := (@array xreal).
Local Abbreviation xtree := (@pytree xreal).

(** [_generate_partition] returns a vector of the length asked for. *)
Lemma generate_partition_length
  (decays : list xreal) (decay_distribution : list R) (L : nat) :
  length decays = length decay_distribution ->
  Forall (fun d => 0 <= d) decay_distribution ->
  rsum decay_distribution = 1 ->
  (Z.of_nat L <= Int32.max_int)%Z ->
  exists v,
    _generate_partition decays (map Fin decay_distribution) L = inr v /\
    length v = L.
Proof.
  intros Hlen Hpos Hsum HL.
  set (fl := floors decay_distribution L).
  set (multiples := partition_multiples (map Fin decay_distribution) L).
  assert (Hne : fl <> []).
  { unfold fl, floors. destruct decay_distribution; [|discriminate].
    simpl in Hsum. lra. }
  pose proof (floors_nonneg L Hpos) as Hfl. fold fl in Hfl.
  destruct (zsum_nonneg_bound Hfl) as [Hs0 Hsb].
  assert (HsL : (zsum fl <= Z.of_nat L)%Z).
  { apply le_IZR. pose proof (floors_sum_le decay_distribution L) as H.
    fold fl in H. rewrite Hsum in H. lra. }
  assert (Hrange : Forall (fun z => Int32.in_range z) fl).
  { rewrite Forall_forall in *. intros z Hz.
    specialize (Hfl z Hz). specialize (Hsb z Hz).
    unfold Int32.in_range, Int32.min_int, Int32.max_int in *. lia. }
  assert (Hlast : (0 <= last fl 0 <= zsum fl)%Z).
  { assert (In (last fl 0%Z) fl).
    { rewrite (app_removelast_last 0%Z Hne) at 2.
      apply in_or_app. right. now left. }
    rewrite Forall_forall in *. split; [apply Hfl|apply Hsb]; assumption. }
  assert (Hm : multiples
               = set_last fl (last fl 0 + (Z.of_nat L - zsum fl))%Z).
  { unfold multiples, partition_multiples.
    rewrite (int32_floors _ _ Hrange). fold fl. f_equal.
    rewrite int32_sub_add. unfold int32_sum.
    rewrite (int32_sum_exact Hfl) by (unfold Int32.max_int in *; lia).
    rewrite Int32.wrap_id; [lia|].
    unfold Int32.in_range, Int32.min_int, Int32.max_int in *. lia. }
  assert (Hmsum : zsum multiples = Z.of_nat L).
  { rewrite Hm, zsum_set_last by exact Hne. lia. }
  assert (Hmpos : Forall (fun z => (0 <= z)%Z) multiples).
  { rewrite Hm. apply set_last_nonneg; [exact Hfl|lia]. }
  assert (Hmlen : length multiples = length decays).
  { rewrite Hm, set_last_length. unfold fl, floors.
    rewrite length_map. lia. }
  eexists. split.
  - unfold _generate_partition. fold multiples. unfold jnp_repeat.
    rewrite Hmlen, Nat.eqb_refl. reflexivity.
  - apply Nat2Z.inj. rewrite repeat_counts_length; auto.
Qed.

Lemma size_of_cons (d : nat) (s : list nat) :
  size_of (d :: s) = (d * size_of s)%nat.
Proof. reflexivity. Qed.

Lemma size_of_ones (n : nat) : size_of (repeat 1%nat n) = 1%nat.
Proof.
  induction n as [|n IH]; [reflexivity|].
  cbn [repeat]. rewrite size_of_cons, IH. reflexivity.
Qed.

Lemma size_of_one_axis (n t L : nat) :
  size_of (firstn t (repeat 1%nat n) ++ L :: skipn (S t) (repeat 1%nat n)) = L.
Proof.
  revert t. induction n as [|n IH]; intros [|t];
    cbn [repeat firstn skipn app].
  - rewrite size_of_cons. cbn. lia.
  - rewrite size_of_cons. cbn. lia.
  - rewrite size_of_cons, size_of_ones. lia.
  - rewrite size_of_cons, IH. lia.
Qed.

Lemma py_index_in_range {A} (l : list A) (i : Z) :
  (0 <= i < Z.of_nat (length l))%Z ->
  exists x, py_index l i = inr x /\ In x l.
Proof.
  intros Hi. unfold py_index.
  destruct (Z.ltb_spec i 0); [lia|].
  destruct (Z.ltb_spec i 0); [lia|].
  destruct (nth_error l (Z.to_nat i)) as [x|] eqn:E.
  - exists x. split; [reflexivity|]. eapply nth_error_In, E.
  - apply nth_error_None in E. lia.
Qed.

(** On a parameter with at least one axis, whose axes are within int32, and
    for a distribution of non-negative proportions that sum to 1, the array
    of a list of as many values is returned. *)
Lemma per_parameter_array_returns (dd : list R) (modality : string)
  (arr : list xreal) (p : xarray) :
  length arr = length dd -> Forall (fun d => 0 <= d) dd -> rsum dd = 1 ->
  Forall (fun d => (Z.of_nat d <= Int32.max_int)%Z) (shape p) ->
  shape p <> [] ->
  exists out,
    _generate_per_parameter_array (map Fin dd) modality arr p = inr out.
Proof.
  intros Hlen Hpos Hsum Hdims Hne.
  unfold _generate_per_parameter_array, ndim.
  assert (Hn : (1 <= Z.of_nat (length (shape p)))%Z).
  { destruct (shape p); [contradiction|simpl length; lia]. }
  assert (Hidx : forall i, (0 <= i < Z.of_nat (length (shape p)))%Z ->
            exists out,
              (array_len <- py_index (shape p) i ;;
               full_array <- _generate_partition arr (map Fin dd) array_len ;;
               reshape (mk_array [length full_array] full_array)
                 (firstn (Z.to_nat i) (repeat 1%nat (length (shape p))) ++
                  array_len ::
                  skipn (S (Z.to_nat i)) (repeat 1%nat (length (shape p)))))
              = inr out).
  { intros i Hi.
    destruct (py_index_in_range (shape p) Hi) as (L & EL & HL).
    rewrite EL. cbn [bind].
    assert (HLb : (Z.of_nat L <= Int32.max_int)%Z)
      by (rewrite Forall_forall in Hdims; now apply Hdims).
    destruct (generate_partition_length arr L Hlen Hpos Hsum HLb)
      as (v & Ev & Hv).
    rewrite Ev. cbn [bind]. unfold reshape. cbn [data].
    rewrite size_of_one_axis, Hv, Nat.eqb_refl. eexists. reflexivity. }
  destruct (String.eqb modality "output"); apply Hidx; lia.
Qed.

Lemma mapM_per_parameter_returns (dd : list R) (modality : string)
  (arr : list xreal) (l : list xarray) :
  length arr = length dd -> Forall (fun d => 0 <= d) dd -> rsum dd = 1 ->
  Forall (fun a => Forall (fun d => (Z.of_nat d <= Int32.max_int)%Z) (shape a))
    l ->
  Forall (fun a => shape a <> []) l ->
  exists out,
    mapM (_generate_per_parameter_array (map Fin dd) modality arr) l = inr out.
Proof.
  intros Hlen Hpos Hsum Hdims Hne.
  induction l as [|a l IH]; [eexists; reflexivity|].
  apply Forall_cons_iff in Hdims. destruct Hdims as [Hda Hdl].
  apply Forall_cons_iff in Hne. destruct Hne as [Hna Hnl].
  destruct (@per_parameter_array_returns dd modality arr a Hlen Hpos Hsum
              Hda Hna) as (c & Ec).
  destruct (IH Hdl Hnl) as (cs & Ecs).
  cbn [mapM]. rewrite Ec. cbn [bind]. rewrite Ecs. eexists. reflexivity.
Qed.

Lemma mapM_per_parameter_no_scalar {F : Type} {FL : Float F}
  (dd : list F) (modality : string) (arr : list F) (l out : list (@array F)) :
  mapM (_generate_per_parameter_array dd modality arr) l = inr out ->
  Forall (fun a => shape a <> []) l.
Proof.
  revert out. induction l as [|a l IH]; intros out H; [constructor|].
  cbn [mapM] in H.
  destruct (_generate_per_parameter_array dd modality arr a) as [e|c] eqn:E;
    [discriminate|]. cbn [bind] in H.
  destruct (mapM _ l) as [e|cs]; [discriminate|].
  constructor; [|now apply (IH cs)].
  intros Hs. rewrite per_parameter_array_scalar in E by exact Hs.
  discriminate.
Qed.

(** For a distribution of non-negative proportions that sum to 1, as many
    decays and scales, and parameters whose axes are within int32, [init] of
    [precondition_by_layered_adaptive_rms] returns exactly when no leaf of
    the parameters is a scalar.  Arithmetic on the proportions is exact. *)
Theorem layered_adaptive_rms_init_returns
  (decays scales : list xreal) (dd : list R) (modality : string)
  (eps eps_root : xreal) (params : xtree) :
  length decays = length dd -> length scales = length dd ->
  Forall (fun d => 0 <= d) dd -> rsum dd = 1 ->
  Forall (fun a => Forall (fun d => (Z.of_nat d <= Int32.max_int)%Z) (shape a))
    (leaves params) ->
  (exists state0,
     init (precondition_by_layered_adaptive_rms decays scales (map Fin dd)
             modality eps eps_root) params = inr state0)
  <-> Forall (fun a => shape a <> []) (leaves params).
Proof.
  intros Hld Hls Hpos Hsum Hdims.
  unfold precondition_by_layered_adaptive_rms. cbn [init]. unfold tree_mapM.
  split.
  - intros [state0 H].
    destruct (mapM (_generate_per_parameter_array (map Fin dd) modality decays)
                (leaves params)) as [e|bs] eqn:Eb; [discriminate|].
    now apply mapM_per_parameter_no_scalar in Eb.
  - intros Hne.
    destruct (@mapM_per_parameter_returns dd modality decays (leaves params)
                Hld Hpos Hsum Hdims Hne) as (bs & Eb).
    destruct (@mapM_per_parameter_returns dd modality scales (leaves params)
                Hls Hpos Hsum Hdims Hne) as (ss & Es).
    rewrite Eb. cbn [bind]. rewrite Es. cbn [bind]. eexists. reflexivity.
Qed.

End LayeredInit.

(* ----------------------------------------------------------------- *)
(** ** Adam without momentum *)

Section AdamWithoutMomentum.
Local Open Scope R_scope.
Local Abbreviation rtree := (@pytree R).
Local Abbreviation xtree := (@pytree xreal).

Lemma rmap_id (t : rtree) : rmap (fun x => x) t = t.
Proof.
  unfold rmap, tree_map. destruct t as [d l]. simpl. f_equal.
  induction l as [|a l IH]; simpl; [reflexivity|].
  rewrite IH. f_equal. destruct a as [s da]. unfold amap. simpl.
  now rewrite map_id.
Qed.

Lemma powerRZ_zero_pos (n : Z) : (0 < n)%Z -> powerRZ 0 n = 0.
Proof.
  intros Hn. destruct n as [|q|q]; try lia.
  simpl. apply pow_i. lia.
Qed.

(** With [b1 = 0] the first moment of [scale_by_adam] is the gradient
    itself, debiased or not, so that on finite gradients (and a finite
    first moment in the state) the update is the one of
    [precondition_by_rms] with the same second moment: the same updates,
    the same new [nu] and count, or the same exception.  Arithmetic is
    exact; the count is within int32. *)
Theorem scale_by_adam_without_momentum_is_rms
  (b2 eps eps_root power : xreal) (debias : bool) (g m : rtree) (nu : xtree)
  (count : Z) (p : option xtree) :
  same_layout g m -> (0 <= count < Int32.max_int)%Z ->
  fmap (fun r => (fst r, adam_mu (snd r), adam_nu (snd r), adam_count (snd r)))
    (update (scale_by_adam (Fin 0) b2 eps eps_root debias power) (fin_tree g)
       {| adam_count := count; adam_mu := fin_tree m; adam_nu := nu |} p)
  = fmap (fun r => (fst r, fin_tree g, pc_nu (snd r), pc_count (snd r)))
      (update (precondition_by_rms b2 eps eps_root debias power) (fin_tree g)
         {| pc_count := count; pc_nu := nu |} p).
Proof.
  intros Hl Hcount.
  unfold scale_by_adam, precondition_by_rms.
  cbn [update adam_mu adam_nu adam_count pc_nu pc_count].
  rewrite update_moment_fin by (try lia; now apply same_layout_congruent).
  rewrite (tree_zip_ext (fun x y => (1 - 0) * powerRZ x 1 + 0 * y)
             (fun x _ => x)) by (intros x y; simpl; ring).
  rewrite (tree_zip_fst Hl). cbn [bind].
  destruct (_update_moment (fin_tree g) nu b2 2) as [e|nu'];
    [reflexivity|]. cbn [bind].
  rewrite int32_add_one_below_max
    by (unfold Int32.in_range, Int32.min_int, Int32.max_int in *; lia).
  assert (Hmu : (if negb debias then fin_tree g
                 else _bias_correction (fin_tree g) (Fin 0) (count + 1))
                = fin_tree g).
  { destruct debias; [|reflexivity]. cbn [negb].
    rewrite bias_correction_fin
      by (try lia; rewrite powerRZ_zero_pos by lia; lra).
    rewrite (rmap_ext (fun x => x / (1 - powerRZ 0 (count + 1))) (fun x => x))
      by (intros x; rewrite powerRZ_zero_pos by lia; field).
    now rewrite rmap_id. }
  rewrite Hmu.
  destruct (tree_map2 _ (fin_tree g) _) as [e|u']; reflexivity.
Qed.

End AdamWithoutMomentum.

(* ----------------------------------------------------------------- *)
(** ** What [extract_field] can return *)

Section ExtractFieldSound.

(** [v] is the value of a field [name] of a namedtuple that is [state]
    itself or is reached from [state] through slots that are tuples. *)
Inductive field_value (name : string) : pyval -> pyval -> Prop :=
| field_here (slots : list (string * pyval)) (v : pyval) :
    lookup name slots = Some v -> field_value name (VNamedTuple slots) v
| field_below (state element v : pyval) :
    is_tuple state = true -> In element (elements state) ->
    is_tuple element = true -> field_value name element v ->
    field_value name state v.

Lemma first_match_sound (name : string) (l : list pyval) :
  Forall (fun e => is_tuple e = true ->
            exists v, extract_field e name = inr v /\
                      (v = VNone \/ field_value name e v)) l ->
  exists v,
    first_match (map (fun e => extract_field e name) (filter is_tuple l))
    = inr v /\
    (v = VNone \/
     exists e, In e l /\ is_tuple e = true /\ field_value name e v).
Proof.
  induction 1 as [|e l He _ IH].
  - exists VNone. split; [reflexivity|now left].
  - cbn [filter]. destruct IH as (w & Ew & Hw).
    assert (Hrest : exists v,
              first_match (map (fun e => extract_field e name)
                             (filter is_tuple l)) = inr v /\
              (v = VNone \/
               exists e0, In e0 (e :: l) /\ is_tuple e0 = true /\
                          field_value name e0 v)).
    { exists w. split; [exact Ew|]. destruct Hw as [Hw|(e0 & Hin & Ht & Hf)];
        [now left|right]. exists e0. split; [now right|]. split; assumption. }
    destruct (is_tuple e) eqn:Et; [|exact Hrest].
    destruct (He eq_refl) as (v & Ev & Hv).
    cbn [map first_match]. rewrite Ev.
    destruct (is_none v) eqn:En; [exact Hrest|].
    exists v. split; [reflexivity|].
    destruct Hv as [->|Hv]; [discriminate|right].
    exists e. split; [now left|]. split; assumption.
Qed.

(** On a tuple, however its slots are nested, [extract_field] raises no
    exception, and what it returns is [None] or the value of a field of the
    given name in a namedtuple reached through tuples: it never returns a
    value found inside a list or a dict, nor anything that is not a field of
    that name. *)
Theorem extract_field_sound (state : pyval) (field_name : string) :
  is_tuple state = true ->
  exists v,
    extract_field state field_name = inr v /\
    (v = VNone \/ field_value field_name state v).
Proof.
  induction state as [| | | | |elems IH|slots IH] using pyval_nested_ind;
    intros Ht; try discriminate.
  - rewrite extract_field_tuple by exact Ht. cbn [has_field elements].
    destruct (first_match_sound IH) as (v & Ev & Hv).
    exists v. split; [exact Ev|].
    destruct Hv as [Hv|(e & Hin & Het & Hf)]; [now left|right].
    now apply field_below with (element := e).
  - rewrite extract_field_tuple by exact Ht. cbn [has_field elements getattr].
    rewrite mem_lookup.
    destruct (lookup field_name slots) as [v|] eqn:El; cbn [is_some].
    + exists v. split; [reflexivity|]. right. now apply field_here.
    + assert (IH' : Forall (fun e => is_tuple e = true ->
                       exists v, extract_field e field_name = inr v /\
                                 (v = VNone \/ field_value field_name e v))
                      (map snd slots))
        by (rewrite Forall_map; exact IH).
      destruct (first_match_sound IH') as (v & Ev & Hv).
      exists v. split; [exact Ev|].
      destruct Hv as [Hv|(e & Hin & Het & Hf)]; [now left|right].
      now apply field_below with (element := e).
Qed.

End ExtractFieldSound.

(* ----------------------------------------------------------------- *)
(** ** Instances of the theorems on the transforms *)

Section TransformInstances.
Local Open Scope R_scope.

(** A real vector of length 1. *)
Definition rvec1 (x : R) : @pytree R := leaf (mk_array [1%nat] [x]).

Lemma fin_tree_rvec1 (x : R) : fin_tree (rvec1 x) = vec1 (Fin x).
Proof. reflexivity. Qed.


Lemma congruent_rvec1 (x y : R) : congruent (rvec1 x) (rvec1 y).
Proof. split; reflexivity. Qed.

(** The update [[nan]] with replacement 0. *)
Lemma sanitize_values_spec_witness :
  exists updates',
    update (sanitize_values (Fin 0)) (vec1 NaN) tt None = inr (updates', tt) /\
    tree_all (fun y => fisfinite y = true) updates'.
Proof.
  destruct (@sanitize_values_spec xreal XReal.xreal_Float (Fin 0) (vec1 NaN)
              tt None eq_refl)
    as (u & Hu & _ & Hfin & _).
  exists u. split; assumption.
Defined.




(** The gradient [[1.0]] on zero moments: the new second moment is not
    below the old one. *)
Lemma scale_by_amsgrad_is_adam_while_nu_grows_witness :
  fmap (fun r => (fst r, ams_mu (snd r), ams_nu (snd r)))
    (update (scale_by_amsgrad (Fin (9 / 10)) (Fin (999 / 1000)) (Fin (1 / 10))
               (Fin 0))
       (vec1 (Fin 1)) {| ams_mu := vec1 (Fin 0); ams_nu := vec1 (Fin 0) |} None)
  = fmap (fun r => (fst r, adam_mu (snd r), adam_nu (snd r)))
      (update (scale_by_adam (Fin (9 / 10)) (Fin (999 / 1000)) (Fin (1 / 10))
                 (Fin 0) false (Fin (1 / 2)))
         (vec1 (Fin 1))
         {| adam_count := 0; adam_mu := vec1 (Fin 0); adam_nu := vec1 (Fin 0) |}
         None).
Proof.
  apply (@scale_by_amsgrad_is_adam_while_nu_grows
           (Fin (9 / 10)) (Fin (999 / 1000)) (Fin (1 / 10)) (Fin 0)
           (vec1 (Fin 1)) {| ams_mu := vec1 (Fin 0); ams_nu := vec1 (Fin 0) |}
           0%Z None
           (fin_tree (tree_zip
                        (fun x y => (1 - 999 / 1000) * powerRZ x 2
                                    + 999 / 1000 * y)
                        (rvec1 1) (rvec1 0)))).
  - split; reflexivity.
  - apply (@update_moment_fin (rvec1 1) (rvec1 0) (999 / 1000) 2);
      [lia|apply congruent_rvec1].
  - unfold tree_all2. cbn. constructor; [|constructor].
    constructor; [|constructor]. apply xleb_fin. simpl. lra.
Defined.



Lemma layered_init_vec1 :
  init (precondition_by_layered_adaptive_rms
          [Fin (9 / 10)] [Fin 2] [Fin 1] "output" (Fin (1 / 10)) (Fin 0))
    (vec1 (Fin 5))
  = inr {| la_count := 0; la_nu := vec1 (Fin 0);
           la_beta_array := vec1 (Fin (9 / 10));
           la_scale_array := vec1 (Fin 2) |}.
Proof.
  unfold precondition_by_layered_adaptive_rms. cbn [init].
  unfold tree_mapM, vec1, leaf. cbn [leaves mapM tdef].
  rewrite !generate_per_parameter_array_vec1. reflexivity.
Qed.

(** One parameter vector of length 1, one bucket, two updates. *)
Lemma layered_adaptive_rms_updates_never_raise_witness :
  exists state_n,
    run_updates
      (precondition_by_layered_adaptive_rms
         [Fin (9 / 10)] [Fin 2] [Fin 1] "output" (Fin (1 / 10)) (Fin 0))
      [(vec1 (Fin 1), None); (vec1 (Fin 3), None)]
      {| la_count := 0; la_nu := vec1 (Fin 0);
         la_beta_array := vec1 (Fin (9 / 10));
         la_scale_array := vec1 (Fin 2) |}
    = inr state_n /\
    la_count state_n = 2%Z.
Proof.
  destruct (@layered_adaptive_rms_updates_never_raise xreal XReal.xreal_Float
              [Fin (9 / 10)] [Fin 2] [Fin 1] "output" (Fin (1 / 10)) (Fin 0)
              (vec1 (Fin 5)) [(vec1 (Fin 1), None); (vec1 (Fin 3), None)] _
              layered_init_vec1
              ltac:(repeat (apply Forall_cons; [split; reflexivity|]);
                    apply Forall_nil))
    as (sn & Hr & Hc & _).
  exists sn. split; [exact Hr|exact Hc].
Defined.

(** A parameter tree that is one scalar. *)
Lemma layered_adaptive_rms_rejects_scalars_witness :
  exists e,
    init (precondition_by_layered_adaptive_rms
            [Fin (9 / 10)] [Fin 2] [Fin 1] "output" (Fin (1 / 10)) (Fin 0))
      (leaf (scalar (Fin 5))) = inl e.
Proof.
  exact (proj2 (@layered_adaptive_rms_rejects_scalars xreal XReal.xreal_Float
                  [Fin (9 / 10)] [Fin 2] [Fin 1] "output" (Fin (1 / 10)) (Fin 0)
                  (leaf (scalar (Fin 5))) (scalar (Fin 5)) eq_refl)
           (or_introl eq_refl)).
Defined.

(** One bucket for a parameter vector of length 1. *)
Lemma layered_adaptive_rms_init_returns_witness :
  exists state0,
    init (precondition_by_layered_adaptive_rms
            [Fin (9 / 10)] [Fin 2] (map Fin [1]) "output" (Fin (1 / 10))
            (Fin 0))
      (vec1 (Fin 5)) = inr state0.
Proof.
  apply (@layered_adaptive_rms_init_returns
           [Fin (9 / 10)] [Fin 2] [1] "output" (Fin (1 / 10)) (Fin 0)
           (vec1 (Fin 5)) eq_refl eq_refl).
  - constructor; [lra|constructor].
  - simpl. lra.
  - constructor; [|constructor]. constructor; [|constructor].
    unfold Int32.max_int. simpl. lia.
  - constructor; [|constructor]. discriminate.
Defined.

(** The gradient [[1.0]] at the first step. *)
Lemma scale_by_adam_without_momentum_is_rms_witness :
  fmap (fun r => (fst r, adam_mu (snd r), adam_nu (snd r), adam_count (snd r)))
    (update (scale_by_adam (Fin 0) (Fin (999 / 1000)) (Fin (1 / 10)) (Fin 0)
               true (Fin (1 / 2))) (fin_tree (rvec1 1))
       {| adam_count := 0; adam_mu := fin_tree (rvec1 0);
          adam_nu := vec1 (Fin 0) |} None)
  = fmap (fun r => (fst r, fin_tree (rvec1 1), pc_nu (snd r), pc_count (snd r)))
      (update (precondition_by_rms (Fin (999 / 1000)) (Fin (1 / 10)) (Fin 0)
                 true (Fin (1 / 2))) (fin_tree (rvec1 1))
         {| pc_count := 0; pc_nu := vec1 (Fin 0) |} None).
Proof.
  apply (@scale_by_adam_without_momentum_is_rms
           (Fin (999 / 1000)) (Fin (1 / 10)) (Fin 0) (Fin (1 / 2)) true
           (rvec1 1) (rvec1 0) (vec1 (Fin 0)) 0%Z None).
  - split; [reflexivity|]. repeat constructor.
  - unfold Int32.max_int. lia.
Defined.

(** The nested tuple [A(x=B(y=5), z=3)] and the field [y]. *)
Lemma extract_field_sound_witness :
  exists v,
    extract_field example_A "y" = inr v /\
    (v = VNone \/ field_value "y" example_A v).
Proof. exact (@extract_field_sound example_A "y" eq_refl). Defined.

End TransformInstances.
